(** * workpool: per-key lease pool (lib/utils/workpool/workpool.go)

    The pool is a small concurrent program: callers invoke [Get], [Set],
    [Stop] and [Release] while one goroutine per group runs [group.run].
    Every access to shared memory in the source happens under a mutex, through
    an atomic counter or through a channel operation, so an execution is an
    interleaving of the atomic actions listed in [event].  The embedding is a
    labelled transition system: [step e s] is the state after action [e], or
    [None] when [e] cannot happen in [s] (a blocked channel operation, a
    goroutine that is elsewhere in its code).

    The actions of a caller are whole method calls: [Get] and [Set] run under
    the lock of the pool, [Stop] is one call of the cancel function and
    [Release] runs under the [sync.Once] of its lease.  The loop of
    [group.run] is cut where other goroutines can get in between: after
    [loadCounts] has released the lock of the group, before the [select]
    chooses among its cases, and between the send on the grant channel and
    [incrActive].  A [select] with several ready cases may take any of them,
    as in Go. *)

From stdpp Require Import gmap strings list.
From Stdlib Require Import ZArith Lia.

(** ** Machine integers *)

Definition uint64_mod : Z := 2 ^ 64.

(** Arithmetic on [uint64] wraps around. *)
Definition wrap64 (z : Z) : Z := z mod uint64_mod.

Definition is_uint64 (z : Z) : Prop := (0 ≤ z < uint64_mod)%Z.

Global Instance is_uint64_dec z : Decision (is_uint64 z).
Proof. unfold is_uint64. apply _. Defined.

(** [time.Duration] is an [int64]: its arithmetic wraps around in two's
    complement. *)
Definition wrap_int64 (z : Z) : Z := ((z + 2 ^ 63) mod uint64_mod - 2 ^ 63)%Z.

Definition is_int64 (z : Z) : Prop := (- 2 ^ 63 ≤ z < 2 ^ 63)%Z.

(** ** retry: delays in arithmetic progression

    The second file of the package.  A [JitterFunc] holds a random generator;
    here the number it draws for a call is an argument of the function, so
    that a statement about every draw is a statement about every generator. *)

Definition JitterFunc : Type := Z → Z → Z.

(** The function built by [NewJitter()]: [rng.Int63n(int64(d))] is the draw,
    a number from 0 up to but not including [d]; [/] on integers truncates. *)
Definition NewJitter : JitterFunc := λ d draw,
  if decide (d < 1)%Z then 0%Z
  else wrap_int64 (d ÷ 2 + draw ÷ 2).

Record LinearConfig := mkLinearConfig {
  First : Z;
  Step : Z;
  Max : Z;
  Jitter : option JitterFunc      (* [None] is nil *)
}.

(** [trace.BadParameter(msg)] *)
Inductive error := BadParameter (msg : string).

Definition CheckAndSetDefaults (c : LinearConfig) : option error :=
  if decide (Step c = 0)%Z then Some (BadParameter "missing parameter Step")
  else if decide (Max c = 0)%Z then Some (BadParameter "missing parameter Max")
  else None.

Record Linear := mkLinear {
  config : LinearConfig;
  attempt : Z;
  jitter : option JitterFunc
}.

Definition newLinear (cfg : LinearConfig) : Linear :=
  mkLinear cfg 0 (Jitter cfg).

Definition NewLinear (cfg : LinearConfig) : error + Linear :=
  match CheckAndSetDefaults cfg with
  | Some err => inl err
  | None => inr (newLinear cfg)
  end.

Definition Linear_Reset (r : Linear) : Linear :=
  mkLinear (config r) 0 (jitter r).

Definition Linear_Clone (r : Linear) : Linear := newLinear (config r).

Definition Linear_Inc (r : Linear) : Linear :=
  mkLinear (config r) (wrap_int64 (attempt r + 1)) (jitter r).

(** The local [a] of [Duration] before the jitter:
    [r.First + time.Duration(r.attempt)*r.Step]. *)
Definition Linear_base (r : Linear) : Z :=
  wrap_int64 (First (config r) + wrap_int64 (attempt r * Step (config r))).

Definition Linear_Duration (r : Linear) (draw : Z) : Z :=
  let a := Linear_base r in
  if decide (a < 1)%Z then 0%Z
  else
    let a' := match jitter r with
              | Some j => j a draw
              | None => a
              end in
    if decide (a' ≤ Max (config r))%Z then a' else Max (config r).

(** What [After] returns: the channel that is already closed or a timer. *)
Inductive after := closedChan | time_After (d : Z).

Definition Linear_After (r : Linear) (draw : Z) : after :=
  let d := Linear_Duration r draw in
  if decide (d < 1)%Z then closedChan else time_After d.

(** ** Data *)

(** Counts holds the target and active counts for a key/group. *)
Record Counts := mkCounts { Target : Z; Active : Z }.

(** The Go zero value [Counts{}]. *)
Definition Counts_zero : Counts := mkCounts 0 0.

Global Instance Counts_eq_dec : EqDecision Counts.
Proof. solve_decision. Defined.

(** [context.Context], as far as the pool looks at it: whether it is done. *)
Record context := mkContext { ctx_done : bool }.

Definition Background : context := mkContext false.

(** Capacity of the channel built by [make(chan struct{}, 1)] in [start]. *)
Definition notifyC_cap : nat := 1.

(** Where the goroutine of [group.run] stands. *)
Inductive pc :=
| AtLoad    (* top of the loop, before [counts = g.loadCounts()] *)
| AtCheck   (* counts loaded, before [if counts.Active < counts.Target] *)
| AtSelect  (* at the [select], which has not taken a case yet *)
| AtIncr    (* the send [grant <- nextLease] went through, before [g.incrActive()] *)
| Exited.   (* returned *)

Global Instance pc_eq_dec : EqDecision pc.
Proof. solve_decision. Defined.

(** Number of elements of a list that pass a test. *)
Fixpoint count_if (p : nat → bool) (xs : list nat) : nat :=
  match xs with
  | [] => 0
  | x :: xs' => (if p x then 1 else 0) + count_if p xs'
  end.

Section workpool.
Context {K : Type} `{Countable K}.

(** A group object together with the local variables of its goroutine.
    Groups live in the heap of the pool and are addressed by their index, as
    the source addresses them by pointer. *)
Record group := mkGroup {
  counts : Counts;
  key : K;
  notifyC : list ();        (* buffered wake-ups, at most [notifyC_cap] *)
  cancelled : bool;         (* [g.cancel()] was called *)
  run_counts : Counts;      (* local [counts] of [run] *)
  nextLease : option nat;   (* local [nextLease] of [run]; [None] is nil *)
  grant : bool;             (* local [grant] of [run]; [false] is nil *)
  at_pc : pc
}.

(** A lease object: [*group], [id] and the [sync.Once]. *)
Record lease := mkLease {
  lease_group : nat;
  id : Z;
  relOnce : bool            (* the Once has fired *)
}.

Record pool := mkPool {
  leaseIDs : Z;
  groups : gmap K nat;
  heap : list group;        (* every group ever started *)
  leases : list lease;      (* every lease ever allocated, in allocation order *)
  grantC : list nat;        (* leases received from the grant channel, oldest first *)
  ctx : context             (* [p.ctx]: done once [p.cancel()] ran or the parent is done *)
}.

(** *** Field updates *)

Definition with_counts (c : Counts) (g : group) : group :=
  mkGroup c (key g) (notifyC g) (cancelled g)
          (run_counts g) (nextLease g) (grant g) (at_pc g).

Definition with_notifyC (n : list ()) (g : group) : group :=
  mkGroup (counts g) (key g) n (cancelled g)
          (run_counts g) (nextLease g) (grant g) (at_pc g).

Definition with_cancelled (b : bool) (g : group) : group :=
  mkGroup (counts g) (key g) (notifyC g) b
          (run_counts g) (nextLease g) (grant g) (at_pc g).

Definition with_run (c : Counts) (nl : option nat) (gr : bool) (p : pc)
    (g : group) : group :=
  mkGroup (counts g) (key g) (notifyC g) (cancelled g) c nl gr p.

Definition with_heap (h : list group) (s : pool) : pool :=
  mkPool (leaseIDs s) (groups s) h (leases s) (grantC s) (ctx s).

Definition with_groups (m : gmap K nat) (s : pool) : pool :=
  mkPool (leaseIDs s) m (heap s) (leases s) (grantC s) (ctx s).

(** Apply [f] to the group at address [gi]. *)
Definition on_group (gi : nat) (f : group → group) (s : pool) : pool :=
  with_heap (alter f gi (heap s)) s.

(** ** group *)

(** [notify]: a [select] with a send on [notifyC] and a [default]; the send is
    taken when the buffer has room, otherwise the default branch is. *)
Definition group_notify (g : group) : group :=
  if decide (length (notifyC g) < notifyC_cap)
  then with_notifyC (notifyC g ++ [()]) g
  else g.

Definition group_loadCounts (g : group) : Counts := counts g.

Definition group_incrActive (g : group) : group :=
  group_notify
    (with_counts (mkCounts (Target (counts g)) (wrap64 (Active (counts g) + 1))) g).

Definition group_decrActive (g : group) : group :=
  group_notify
    (with_counts (mkCounts (Target (counts g)) (wrap64 (Active (counts g) - 1))) g).

Definition group_SetTarget (target : Z) (g : group) : group :=
  group_notify (with_counts (mkCounts target (Active (counts g))) g).

(** [g.cancel()] *)
Definition group_cancel (g : group) : group := with_cancelled true g.

(** [g.ctx] is derived from [p.ctx]: it is done when [g.cancel()] was called
    or when the context of the pool is done. *)
Definition group_ctx_done (s : pool) (g : group) : bool :=
  cancelled g || ctx_done (ctx s).

(** ** pool *)

(** [NewPool(ctx)]: [context.WithCancel(ctx)] is done from the start when the
    parent is. *)
Definition NewPool (parent : context) : pool :=
  mkPool 0 ∅ [] [] [] (mkContext (ctx_done parent)).

(** [Acquire] returns the grant channel; the model keeps what was received
    from it. *)
Definition pool_Acquire (s : pool) : list nat := grantC s.

Definition pool_Get (k : K) (s : pool) : Counts * pool :=
  match groups s !! k with
  | Some gi =>
      match heap s !! gi with
      | Some g => (group_loadCounts g, s)
      | None => (Counts_zero, s)      (* dangling pointer: never in a reachable state *)
      end
  | None => (Counts_zero, s)
  end.

(** [start]: the new group is allocated at the end of the heap and its
    goroutine is at the top of its loop. *)
Definition pool_start (k : K) (target : Z) (s : pool) : pool :=
  let g := mkGroup (mkCounts target 0) k [] false
                   Counts_zero None false AtLoad in
  with_groups (<[k := length (heap s)]> (groups s))
              (with_heap (heap s ++ [g]) s).

Definition pool_del (k : K) (s : pool) : bool * pool :=
  match groups s !! k with
  | None => (false, s)
  | Some gi => (true, with_groups (delete k (groups s)) (on_group gi group_cancel s))
  end.

Definition pool_Set (k : K) (target : Z) (s : pool) : pool :=
  if decide (target < 1)%Z then snd (pool_del k s)
  else match groups s !! k with
       | None => pool_start k target s
       | Some gi => on_group gi (group_SetTarget target) s
       end.

(** [p.cancel()].  A cancellation of the parent context has the same effect. *)
Definition pool_Stop (s : pool) : pool :=
  mkPool (leaseIDs s) (groups s) (heap s) (leases s) (grantC s) (mkContext true).

(** ** group.run

    One function per atomic action of the loop.  Each returns [None] when the
    goroutine of the group is not at that point of its code or when the
    channel operation of the action is not ready.

    A goroutine at [AtSelect] stands both for one that reaches its [select]
    and for one that waits in it.  Go takes any ready case when the [select]
    is reached and the first case to become ready while the goroutine waits;
    here every ready case can be taken at any time.  That adds executions (a
    waiting goroutine that still sends after its context became done) and
    removes none, so what holds in every execution below holds in every
    execution of the code. *)

(** [counts = g.loadCounts()] *)
Definition run_load (gi : nat) (s : pool) : option pool :=
  g ← heap s !! gi;
  if decide (at_pc g = AtLoad)
  then Some (on_group gi
               (with_run (group_loadCounts g) (nextLease g) (grant g) AtCheck) s)
  else None.

(** [g.leaseIDs.Add(1)] *)
Definition leaseIDs_Add (delta : Z) (s : pool) : Z * pool :=
  let n := wrap64 (leaseIDs s + delta) in
  (n, mkPool n (groups s) (heap s) (leases s) (grantC s) (ctx s)).

(** [&lease{group: g, id: ...}]: the new object goes to the end of the lease
    heap; the result is its address. *)
Definition new_lease (gi : nat) (i : Z) (s : pool) : nat * pool :=
  (length (leases s),
   mkPool (leaseIDs s) (groups s) (heap s)
          (leases s ++ [mkLease gi i false]) (grantC s) (ctx s)).

(** The [if counts.Active < counts.Target] statement up to the [select]. *)
Definition run_check (gi : nat) (s : pool) : option pool :=
  g ← heap s !! gi;
  if decide (at_pc g = AtCheck) then
    if decide (Active (run_counts g) < Target (run_counts g))%Z then
      match nextLease g with
      | None =>
          let '(i, s1) := leaseIDs_Add 1 s in
          let '(l, s2) := new_lease gi i s1 in
          Some (on_group gi (with_run (run_counts g) (Some l) true AtSelect) s2)
      | Some l =>
          Some (on_group gi (with_run (run_counts g) (Some l) true AtSelect) s)
      end
    else
      Some (on_group gi (with_run (run_counts g) (nextLease g) false AtSelect) s)
  else None.

(** [case grant <- nextLease]: ready when [grant] is not nil and a receiver
    takes the value from [Acquire()]; receivers belong to the environment, so
    one may always be there. *)
Definition run_send (gi : nat) (s : pool) : option pool :=
  g ← heap s !! gi;
  if decide (at_pc g = AtSelect) then
    if grant g then
      l ← nextLease g;
      Some (on_group gi (with_run (run_counts g) (nextLease g) (grant g) AtIncr)
              (mkPool (leaseIDs s) (groups s) (heap s) (leases s)
                      (grantC s ++ [l]) (ctx s)))
    else None
  else None.

(** The body of that case: [g.incrActive(); nextLease = nil]. *)
Definition run_incr (gi : nat) (s : pool) : option pool :=
  g ← heap s !! gi;
  if decide (at_pc g = AtIncr)
  then Some (on_group gi
               (λ g', with_run (run_counts g') None (grant g') AtLoad
                        (group_incrActive g')) s)
  else None.

(** [case <-g.notifyC]: ready when a wake-up is buffered. *)
Definition run_wake (gi : nat) (s : pool) : option pool :=
  g ← heap s !! gi;
  if decide (at_pc g = AtSelect) then
    match notifyC g with
    | [] => None
    | _ :: rest =>
        Some (on_group gi
                (λ g', with_run (run_counts g') (nextLease g') (grant g') AtLoad
                         (with_notifyC rest g')) s)
    end
  else None.

(** [case <-g.ctx.Done(): return] *)
Definition run_exit (gi : nat) (s : pool) : option pool :=
  g ← heap s !! gi;
  if decide (at_pc g = AtSelect) then
    if group_ctx_done s g
    then Some (on_group gi
                 (with_run (run_counts g) (nextLease g) (grant g) Exited) s)
    else None
  else None.

(** ** lease *)

Definition with_relOnce (b : bool) (l : lease) : lease :=
  mkLease (lease_group l) (id l) b.

Definition lease_ID (s : pool) (l : nat) : option Z := id <$> leases s !! l.

Definition lease_Key (s : pool) (l : nat) : option K :=
  lo ← leases s !! l; g ← heap s !! lease_group lo; Some (key g).

(** [l.relOnce.Do(func() { l.decrActive() })] *)
Definition lease_Release (l : nat) (s : pool) : pool :=
  match leases s !! l with
  | Some lo =>
      if relOnce lo then s
      else on_group (lease_group lo) group_decrActive
             (mkPool (leaseIDs s) (groups s) (heap s)
                     (<[l := with_relOnce true lo]> (leases s)) (grantC s) (ctx s))
  | None => s
  end.

(** ** nopLease *)

Record nopLease := mkNopLease { nop_key : K }.

Definition NOPLease (k : K) : nopLease := mkNopLease k.

Definition nopLease_ID (l : nopLease) : Z := 0.

Definition nopLease_Key (l : nopLease) : K := nop_key l.

Definition nopLease_Release (l : nopLease) (s : pool) : pool := s.

(** The [Lease] interface, with the state of the pool passed explicitly. *)
Class Lease (L : Type) := {
  ID : pool → L → option Z;
  Key : pool → L → option K;
  Release : L → pool → pool
}.

Global Instance lease_Lease : Lease nat :=
  {| ID := lease_ID; Key := lease_Key; Release := lease_Release |}.

Global Instance nopLease_Lease : Lease nopLease :=
  {| ID := λ _ l, Some (nopLease_ID l);
     Key := λ _ l, Some (nopLease_Key l);
     Release := nopLease_Release |}.

(** ** Executions *)

Inductive event :=
| CallGet (k : K)
| CallSet (k : K) (target : Z)
| CallStop
| CallRelease (l : nat)
| RunLoad (gi : nat)
| RunCheck (gi : nat)
| RunSend (gi : nat)
| RunIncr (gi : nat)
| RunWake (gi : nat)
| RunExit (gi : nat).

(** [Set] takes a [uint64]; [Release] is called on a lease that some caller
    holds, that is on one that came out of the grant channel. *)
Definition step (e : event) (s : pool) : option pool :=
  match e with
  | CallGet k => Some (snd (pool_Get k s))
  | CallSet k target =>
      if decide (is_uint64 target) then Some (pool_Set k target s) else None
  | CallStop => Some (pool_Stop s)
  | CallRelease l =>
      if decide (l ∈ grantC s) then Some (lease_Release l s) else None
  | RunLoad gi => run_load gi s
  | RunCheck gi => run_check gi s
  | RunSend gi => run_send gi s
  | RunIncr gi => run_incr gi s
  | RunWake gi => run_wake gi s
  | RunExit gi => run_exit gi s
  end.

Fixpoint exec (tr : list event) (s : pool) : option pool :=
  match tr with
  | [] => Some s
  | e :: tr' => s' ← step e s; exec tr' s'
  end.

(** The states of a pool built by [NewPool(parent)]. *)
Definition reachable (parent : context) (s : pool) : Prop :=
  ∃ tr, exec tr (NewPool parent) = Some s.

(** Counts of the group at address [gi]. *)
Definition counts_at (s : pool) (gi : nat) : option Counts :=
  counts <$> heap s !! gi.

(** Target of the last [Set(k, _)] of an execution, if there is one. *)
Fixpoint last_Set (k : K) (tr : list event) : option Z :=
  match tr with
  | [] => None
  | e :: tr' =>
      match last_Set k tr' with
      | Some t => Some t
      | None =>
          match e with
          | CallSet k' t => if decide (k' = k) then Some t else None
          | _ => None
          end
      end
  end.

(** What the registry holds for [k] when the last [Set(k, _)] had target [o]
    ([None]: no such call yet). *)
Definition tracked (k : K) (s : pool) (o : option Z) : Prop :=
  match o with
  | Some t =>
      if decide (1 ≤ t)%Z
      then ∃ gi g, groups s !! k = Some gi ∧ heap s !! gi = Some g
                   ∧ Target (counts g) = t
      else groups s !! k = None
  | None => groups s !! k = None
  end.

(** The [sync.Once] of the lease at address [l] has fired. *)
Definition released (s : pool) (l : nat) : Prop :=
  ∃ lo, leases s !! l = Some lo ∧ relOnce lo = true.

(** The execution of the scenario "set a target, let one lease be granted,
    delete the group": the group is the first of the heap, the lease the
    first of the lease heap. *)
Definition grant_then_delete (k : K) (t : Z) : list event :=
  [CallSet k t; RunLoad 0; RunCheck 0; RunSend 0; RunIncr 0; CallSet k 0].

(** One round of a group with target 1: load, allocate a candidate, hand it
    over, count it, and the caller releases it.  [n] is the address the lease
    gets. *)
Definition one_round (n : nat) : list event :=
  [RunLoad 0; RunCheck 0; RunSend 0; RunIncr 0; CallRelease n].

(** The first group waits at the top of its loop with target 1, nothing out
    and no candidate, after [n] leases were allocated. *)
Definition round_ready (s : pool) (n : nat) : Prop :=
  length (leases s) = n
  ∧ ∃ g, heap s !! 0 = Some g ∧ at_pc g = AtLoad ∧ nextLease g = None
         ∧ counts g = mkCounts 1 0.

(** *** Executions used as examples *)

(** The state an execution from a new pool ends in (the new pool itself when
    the execution is not possible). *)
Definition state_after (tr : list event) : pool :=
  default (NewPool Background) (exec tr (NewPool Background)).

(** Set a target, then one full grant by the first group. *)
Definition grant_one (k : K) (t : Z) : list event :=
  [CallSet k t; RunLoad 0; RunCheck 0; RunSend 0; RunIncr 0].

(** With one lease out of two, the goroutine loads the counts and offers a
    second lease; then the target is lowered to 1. *)
Definition lowered_target (k : K) : list event :=
  grant_one k 2 ++ [RunLoad 0; RunCheck 0; CallSet k 1].

(** The receiver of a lease releases it before the goroutine has run
    [incrActive]. *)
Definition early_release (k : K) : list event :=
  [CallSet k 1; RunLoad 0; RunCheck 0; RunSend 0; CallRelease 0].

(** Stop arrives while a goroutine offers a lease. *)
Definition stop_with_offer (k : K) : list event :=
  [CallSet k 1; RunLoad 0; RunCheck 0; CallStop].

(** Two groups allocate their candidates; the second one is taken first. *)
Definition two_groups (a b : K) : list event :=
  [CallSet a 1; CallSet b 1; RunLoad 0; RunCheck 0; RunLoad 1; RunCheck 1;
   RunSend 1; RunSend 0].

(** A group is deleted while it offers its first candidate. *)
Definition deleted_with_offer (k : K) : list event :=
  [CallSet k 1; RunLoad 0; RunCheck 0; CallSet k 0; RunExit 0].

(** ** Invariants *)

(** The registry maps a key to a live address whose group carries that key. *)
Definition registry_ok (s : pool) : Prop :=
  ∀ k gi, groups s !! k = Some gi → ∃ g, heap s !! gi = Some g ∧ key g = k.

(** What holds of every group object, whatever the others do. *)
Record group_ok (g : group) : Prop := {
  notifyC_bounded : length (notifyC g) ≤ notifyC_cap;
  Target_uint64 : is_uint64 (Target (counts g));
  Active_uint64 : is_uint64 (Active (counts g));
  offer_granting :
    at_pc g = AtSelect → grant g = true →
    (Active (run_counts g) < Target (run_counts g))%Z ∧ is_Some (nextLease g);
  offer_idle :
    at_pc g = AtSelect → grant g = false →
    ¬ (Active (run_counts g) < Target (run_counts g))%Z;
  sent_lease : at_pc g = AtIncr → is_Some (nextLease g)
}.

Definition heap_ok (s : pool) : Prop :=
  ∀ gi g, heap s !! gi = Some g → group_ok g.

(** Lease objects: the [n]-th allocation got the counter after [n]
    increments, and every pointer to a lease or from a lease is live. *)
Record leases_ok (s : pool) : Prop := {
  counter_ok : leaseIDs s = wrap64 (Z.of_nat (length (leases s)));
  lease_id_ok :
    ∀ l lo, leases s !! l = Some lo → id lo = wrap64 (Z.of_nat l + 1);
  lease_group_ok :
    ∀ l lo, leases s !! l = Some lo → lease_group lo < length (heap s);
  grantC_ok : ∀ l, l ∈ grantC s → l < length (leases s);
  nextLease_ok :
    ∀ gi g l, heap s !! gi = Some g → nextLease g = Some l →
    ∃ lo, leases s !! l = Some lo ∧ lease_group lo = gi
}.

(** The lease at [l] belongs to group [gi] and its Once has not fired. *)
Definition is_outstanding (ls : list lease) (gi l : nat) : bool :=
  match ls !! l with
  | Some lo => bool_decide (lease_group lo = gi) && negb (relOnce lo)
  | None => false
  end.

(** Leases of group [gi] that were granted and not released yet. *)
Definition outstanding (s : pool) (gi : nat) : nat :=
  count_if (is_outstanding (leases s) gi) (grantC s).

(** 1 while the goroutine stands between the send and [incrActive]. *)
Definition pending_incr (g : group) : Z :=
  if decide (at_pc g = AtIncr) then 1%Z else 0%Z.

(** How the Active counts follow the leases that are out. *)
Record flow_ok (s : pool) : Prop := {
  grantC_NoDup : NoDup (grantC s);
  released_granted :
    ∀ l lo, leases s !! l = Some lo → relOnce lo = true → l ∈ grantC s;
  candidate_granted :
    ∀ gi g l, heap s !! gi = Some g → nextLease g = Some l →
    (l ∈ grantC s ↔ at_pc g = AtIncr);
  candidate_latest :
    ∀ gi g l, heap s !! gi = Some g → nextLease g = Some l →
    ∀ l' lo', leases s !! l' = Some lo' → lease_group lo' = gi → l' ≤ l;
  run_Target_uint64 :
    ∀ gi g, heap s !! gi = Some g → is_uint64 (Target (run_counts g));
  outstanding_bounded :
    ∀ gi g, heap s !! gi = Some g →
    (Z.of_nat (outstanding s gi) < uint64_mod)%Z;
  Active_outstanding :
    ∀ gi g, heap s !! gi = Some g →
    Active (counts g) = wrap64 (Z.of_nat (outstanding s gi) - pending_incr g);
  Active_below_snapshot :
    ∀ gi g, heap s !! gi = Some g →
    at_pc g = AtCheck ∨ at_pc g = AtSelect →
    (Active (counts g) ≤ Active (run_counts g))%Z
}.

(** Leases of one group come out of the grant channel in the order of their
    allocation. *)
Definition grant_order_ok (s : pool) : Prop :=
  ∀ i j l1 l2 lo1 lo2,
    i < j → grantC s !! i = Some l1 → grantC s !! j = Some l2 →
    leases s !! l1 = Some lo1 → leases s !! l2 = Some lo2 →
    lease_group lo1 = lease_group lo2 → l1 < l2.

(** Which goroutines run, which wake-ups are pending and where the
    allocated leases are. *)
Record live_ok (s : pool) : Prop := {
  registered_live :
    ∀ k gi g, groups s !! k = Some gi → heap s !! gi = Some g →
    cancelled g = false;
  exited_done :
    ∀ gi g, heap s !! gi = Some g → at_pc g = Exited →
    group_ctx_done s g = true;
  wake_pending :
    ∀ gi g, heap s !! gi = Some g →
    at_pc g = AtCheck ∨ at_pc g = AtSelect →
    run_counts g ≠ counts g → notifyC g ≠ [];
  lease_accounted :
    ∀ l lo, leases s !! l = Some lo →
    l ∈ grantC s ∨ ∃ g, heap s !! lease_group lo = Some g ∧ nextLease g = Some l
}.

(** The action is a [Set] that gives a registered group a smaller target
    (still at least 1, so that the group stays). *)
Definition lowers (e : event) (s : pool) : bool :=
  match e with
  | CallSet k t =>
      match groups s !! k with
      | Some gi =>
          match heap s !! gi with
          | Some g => bool_decide (1 ≤ t)%Z && bool_decide (t < Target (counts g))%Z
          | None => false
          end
      | None => false
      end
  | _ => false
  end.

(** No action of the execution lowers a target. *)
Fixpoint never_lowers (tr : list event) (s : pool) : bool :=
  match tr with
  | [] => true
  | e :: tr' =>
      negb (lowers e s)
      && match step e s with
         | Some s' => never_lowers tr' s'
         | None => true
         end
  end.

(** With targets that only grow, a group has no more leases out than its
    target, and the target its goroutine loaded is not above the current
    one. *)
Definition within_target (s : pool) : Prop :=
  ∀ gi g, heap s !! gi = Some g →
    (Z.of_nat (outstanding s gi) ≤ Target (counts g))%Z
    ∧ (Target (run_counts g) ≤ Target (counts g))%Z.

(** ** Basic facts about the field updates *)

Section facts.

Lemma wrap64_range z : is_uint64 (wrap64 z).
Proof. unfold is_uint64, wrap64, uint64_mod. apply Z.mod_pos_bound. lia. Qed.

Lemma wrap64_small z : is_uint64 z → wrap64 z = z.
Proof. unfold is_uint64, wrap64. intros Hz. by apply Z.mod_small. Qed.

Lemma key_notify g : key (group_notify g) = key g.
Proof. unfold group_notify. by case_decide. Qed.

Lemma counts_notify g : counts (group_notify g) = counts g.
Proof. unfold group_notify. by case_decide. Qed.

Lemma at_pc_notify g : at_pc (group_notify g) = at_pc g.
Proof. unfold group_notify. by case_decide. Qed.

Lemma nextLease_notify g : nextLease (group_notify g) = nextLease g.
Proof. unfold group_notify. by case_decide. Qed.

Lemma grant_notify g : grant (group_notify g) = grant g.
Proof. unfold group_notify. by case_decide. Qed.

Lemma run_counts_notify g : run_counts (group_notify g) = run_counts g.
Proof. unfold group_notify. by case_decide. Qed.

Lemma cancelled_notify g : cancelled (group_notify g) = cancelled g.
Proof. unfold group_notify. by case_decide. Qed.

Lemma notifyC_notify_length g :
  length (notifyC g) ≤ notifyC_cap →
  length (notifyC (group_notify g)) = notifyC_cap.
Proof.
  unfold group_notify, notifyC_cap. intros Hle.
  case_decide; simpl; [rewrite length_app; simpl|]; lia.
Qed.

(** Fields of an updated group. *)
Ltac grp_simpl :=
  unfold group_SetTarget, group_incrActive, group_decrActive, group_cancel,
         group_loadCounts;
  simpl;
  rewrite ?key_notify, ?counts_notify, ?at_pc_notify, ?nextLease_notify,
          ?grant_notify, ?run_counts_notify, ?cancelled_notify;
  simpl.

Lemma exec_app tr1 tr2 s :
  exec (tr1 ++ tr2) s = s' ← exec tr1 s; exec tr2 s'.
Proof.
  revert s. induction tr1 as [|e tr1 IH]; intros s; simpl; [done|].
  destruct (step e s); simpl; [apply IH|done].
Qed.

Lemma reachable_step parent e s s' :
  reachable parent s → step e s = Some s' → reachable parent s'.
Proof.
  intros [tr Htr] Hstep. exists (tr ++ [e]).
  rewrite exec_app, Htr. simpl. by rewrite Hstep.
Qed.

Lemma reachable_exec parent tr s s' :
  reachable parent s → exec tr s = Some s' → reachable parent s'.
Proof.
  intros [tr0 Htr0] Htr. exists (tr0 ++ tr). by rewrite exec_app, Htr0.
Qed.

(** Induction over executions: a property of the new pool that every action
    keeps holds in every reachable state. *)
Lemma exec_invariant (P : pool → Prop) :
  (∀ e s s', P s → step e s = Some s' → P s') →
  ∀ tr s s', P s → exec tr s = Some s' → P s'.
Proof.
  intros Hstep tr. induction tr as [|e tr IH]; intros s s' HP Hex; simpl in Hex.
  - by simplify_eq.
  - destruct (step e s) as [s1|] eqn:He; simpl in Hex; [|done].
    eapply IH; [|done]. by eapply Hstep.
Qed.

Lemma reachable_invariant (P : pool → Prop) parent :
  P (NewPool parent) →
  (∀ e s s', P s → step e s = Some s' → P s') →
  ∀ s, reachable parent s → P s.
Proof. intros H0 Hstep s [tr Htr]. by eapply exec_invariant. Qed.

(** Case analysis on an action that happened: one goal per branch of the
    code, with the new state written out. *)
Ltac step_split H :=
  repeat match type of H with
         | context [mbind _ ?o] => destruct o eqn:?; simpl in H
         | context [decide ?P] => destruct (decide P); simpl in H
         | context [match ?x with _ => _ end] => destruct x eqn:?; simpl in H
         end;
  try discriminate H;
  try (apply (inj Some) in H; subst).

Ltac step_cases H :=
  match type of H with
  | step ?e ?s = Some ?s' =>
      destruct e; simpl in H;
      unfold run_load, run_check, run_send, run_incr, run_wake, run_exit,
             pool_Set, pool_del, pool_Get, lease_Release,
             leaseIDs_Add, new_lease in H;
      simpl in H; step_split H
  end.

Lemma lookup_alter_Some (f : group → group) gi (h : list group) gj g' :
  alter f gi h !! gj = Some g' →
  ∃ g, h !! gj = Some g ∧ ((gj = gi ∧ g' = f g) ∨ (gj ≠ gi ∧ g' = g)).
Proof.
  rewrite list_lookup_alter. case_decide as Hd.
  - subst gj. destruct (h !! gi) as [g|]; simpl; [|done].
    intros [= <-]. exists g. auto.
  - intros Hg. exists g'. auto.
Qed.

Lemma lookup_alter_key (f : group → group) gi (h : list group) gj g :
  (∀ x, key (f x) = key x) →
  h !! gj = Some g →
  ∃ g', alter f gi h !! gj = Some g' ∧ key g' = key g.
Proof.
  intros Hf Hg. rewrite list_lookup_alter. case_decide.
  - subst. rewrite Hg. simpl. eauto.
  - eauto.
Qed.

Lemma registry_ok_step e s s' :
  registry_ok s → step e s = Some s' → registry_ok s'.
Proof.
  intros Hok Hs. step_cases Hs; try done; intros k' gi' Hk'; simpl in *.
  all: try (apply Hok in Hk' as (g' & Hg' & Hkey); rewrite <- Hkey;
            apply lookup_alter_key; [|done]; intros x; by grp_simpl).
  - (* del *)
    apply lookup_delete_Some in Hk' as [_ Hk'].
    apply Hok in Hk' as (g' & Hg' & Hkey). rewrite <- Hkey.
    by apply lookup_alter_key.
  - (* start *)
    apply lookup_insert_Some in Hk' as [[<- <-]|[_ Hk']].
    + eexists. split; [by apply list_lookup_middle|done].
    + apply Hok in Hk' as (g' & Hg' & Hkey).
      exists g'. split; [by apply lookup_app_l_Some|done].
Qed.

Lemma registry_ok_reachable parent s : reachable parent s → registry_ok s.
Proof.
  apply reachable_invariant; [|apply registry_ok_step].
  intros k gi Hk. simpl in Hk. by rewrite lookup_empty in Hk.
Qed.

Lemma group_ok_notify g : group_ok g → group_ok (group_notify g).
Proof.
  intros [Hn HT HA Hg Hi Hs].
  split; rewrite ?counts_notify, ?at_pc_notify, ?grant_notify,
           ?run_counts_notify, ?nextLease_notify; try done.
  by rewrite notifyC_notify_length.
Qed.

Lemma group_ok_with_counts c g :
  is_uint64 (Target c) → is_uint64 (Active c) →
  group_ok g → group_ok (with_counts c g).
Proof. intros HT HA [Hn _ _ Hg Hi Hs]. by split. Qed.

Lemma group_ok_SetTarget t g :
  is_uint64 t → group_ok g → group_ok (group_SetTarget t g).
Proof.
  intros Ht Hok. apply group_ok_notify, group_ok_with_counts; [done| |done].
  apply Hok.
Qed.

Lemma group_ok_incrActive g : group_ok g → group_ok (group_incrActive g).
Proof.
  intros Hok. apply group_ok_notify, group_ok_with_counts; [| |done].
  - apply Hok.
  - apply wrap64_range.
Qed.

Lemma group_ok_decrActive g : group_ok g → group_ok (group_decrActive g).
Proof.
  intros Hok. apply group_ok_notify, group_ok_with_counts; [| |done].
  - apply Hok.
  - apply wrap64_range.
Qed.

Lemma group_ok_cancel g : group_ok g → group_ok (group_cancel g).
Proof. intros [Hn HT HA Hg Hi Hs]. by split. Qed.

Lemma heap_ok_step e s s' : heap_ok s → step e s = Some s' → heap_ok s'.
Proof.
  intros Hok Hs. step_cases Hs; try done; intros gj g' Hg'; simpl in *.
  all: try (apply lookup_alter_Some in Hg' as (g0 & Hg0 & [[-> ->]|[? ->]]);
            [|by eapply Hok]; pose proof (Hok _ _ Hg0) as Hg0ok;
            simplify_eq).
  - by apply group_ok_cancel.
  - by apply group_ok_SetTarget.
  - (* start *)
    apply lookup_snoc_Some in Hg' as [[_ Hg']|[_ <-]]; [by eapply Hok|].
    split; simpl; try done. unfold notifyC_cap. lia.
  - by apply group_ok_decrActive.
  - destruct Hg0ok; by split.
  - destruct Hg0ok; split; simpl; intros; try done; eauto.
  - destruct Hg0ok; split; simpl; intros; try done; eauto.
  - destruct Hg0ok; by split.
  - destruct Hg0ok; split; simpl; intros; try done; eauto.
  - pose proof (group_ok_incrActive _ Hg0ok) as []. by split.
  - destruct Hg0ok as [Hn]; split; simpl; try done.
    match goal with Hl : notifyC _ = _ |- _ => rewrite Hl in Hn end.
    simpl in Hn. lia.
  - destruct Hg0ok; by split.
Qed.

Lemma heap_ok_reachable parent s : reachable parent s → heap_ok s.
Proof.
  apply reachable_invariant; [|apply heap_ok_step].
  intros gi g Hg. done.
Qed.

Lemma wrap64_succ (n : nat) :
  wrap64 (wrap64 (Z.of_nat n) + 1) = wrap64 (Z.of_nat (S n)).
Proof.
  unfold wrap64. rewrite Zplus_mod_idemp_l. f_equal. lia.
Qed.

Lemma leases_ok_step e s s' : leases_ok s → step e s = Some s' → leases_ok s'.
Proof.
  intros [Hc Hid Hgrp Hgc Hnl] Hs.
  step_cases Hs; try done; split; simpl in *; try done.
  all: rewrite ?length_alter, ?length_app, ?length_insert; simpl; try done.
  all: try (intros gj g' l' Hg' Hl';
            apply lookup_alter_Some in Hg' as (g0 & Hg0 & [[-> ->]|[? ->]]);
            [|by eauto]; revert Hl'; grp_simpl; intros Hl'; simplify_eq;
            by eauto).
  - (* start *)
    intros l lo Hl. apply Hgrp in Hl. lia.
  - intros gj g l Hg Hl.
    apply lookup_snoc_Some in Hg as [[_ Hg]|[_ <-]]; [by eauto|done].
  - (* Release *)
    intros l1 lo Hlo. apply list_lookup_insert_Some in Hlo
      as [(-> & <- & _)|[_ Hlo]]; simpl; eauto.
  - intros l1 lo Hlo. apply list_lookup_insert_Some in Hlo
      as [(-> & <- & _)|[_ Hlo]]; simpl; eauto.
  - intros gj g' l1 Hg' Hl1.
    assert (∃ g0, heap s !! gj = Some g0 ∧ nextLease g0 = Some l1)
      as (g0 & Hg0 & Hn0).
    { apply lookup_alter_Some in Hg' as (g0 & Hg0 & [[-> ->]|[? ->]]);
        exists g0; split; try done. revert Hl1. by grp_simpl. }
    destruct (Hnl _ _ _ Hg0 Hn0) as (lo & Hlo & Hgi).
    destruct (decide (l = l1)) as [->|Hne].
    + exists (with_relOnce true lo). split; [|done].
      apply list_lookup_insert_Some. left. split_and!; try done.
      * congruence.
      * by eapply lookup_lt_Some.
    + exists lo. split; [|done]. by rewrite list_lookup_insert_ne.
  - (* allocation *)
    rewrite Hc, wrap64_succ. do 2 f_equal. lia.
  - intros l0 lo Hlo. apply lookup_snoc_Some in Hlo as [[_ Hlo]|[-> <-]];
      [by eauto|]. simpl. rewrite Hc. unfold wrap64.
    rewrite Zplus_mod_idemp_l. done.
  - intros l0 lo Hlo. apply lookup_snoc_Some in Hlo as [[_ Hlo]|[-> <-]];
      [by eauto|]. simpl. by eapply lookup_lt_Some.
  - intros l0 Hl0. apply Hgc in Hl0. lia.
  - intros gj g' l0 Hg' Hl0.
    apply lookup_alter_Some in Hg' as (g0 & Hg0 & [[-> ->]|[? ->]]).
    + simpl in Hl0. simplify_eq. eexists. split; [apply list_lookup_middle|]; done.
    + destruct (Hnl _ _ _ Hg0 Hl0) as (lo & Hlo & Hgi).
      exists lo. split; [by apply lookup_app_l_Some|done].
  - (* send *)
    intros l Hl. apply elem_of_app in Hl as [Hl|Hl]; [by auto|].
    apply list_elem_of_singleton in Hl as ->.
    match goal with Hg : heap s !! _ = Some ?g, Hn : nextLease ?g = Some _ |- _ =>
      destruct (Hnl _ _ _ Hg Hn) as (lo & Hlo & _) end.
    by eapply lookup_lt_Some.
Qed.

Lemma leases_ok_reachable parent s : reachable parent s → leases_ok s.
Proof.
  apply reachable_invariant; [|apply leases_ok_step].
  split; simpl; try done.
  intros l Hl. by apply elem_of_nil in Hl.
Qed.

(** ** [Set] and [Get] *)

Lemma lookup_alter_Target (f : group → group) gi (h : list group) gj g :
  (∀ x, Target (counts (f x)) = Target (counts x)) →
  h !! gj = Some g →
  ∃ g', alter f gi h !! gj = Some g' ∧ Target (counts g') = Target (counts g).
Proof.
  intros Hf Hg. rewrite list_lookup_alter. case_decide.
  - subst. rewrite Hg. simpl. eauto.
  - eauto.
Qed.

Lemma tracked_step k e s s' o :
  registry_ok s → tracked k s o → step e s = Some s' →
  tracked k s'
    match e with
    | CallSet k' t => if decide (k' = k) then Some t else o
    | _ => o
    end.
Proof.
  intros Hreg Htr Hs.
  assert (∀ (f : group → group) gi m,
            (∀ x, Target (counts (f x)) = Target (counts x)) →
            m !! k = groups s !! k →
            tracked k (with_groups m (on_group gi f s)) o) as Hframe.
  { intros f gi m Hf Hm. unfold tracked in *. destruct o as [t|]; simpl;
      [case_decide|]; rewrite ?Hm; try done.
    destruct Htr as (gk & g & Hgk & Hg & Ht).
    destruct (lookup_alter_Target f gi _ _ _ Hf Hg) as (g' & Hg' & Ht').
    exists gk, g'. split_and!; try done. congruence. }
  step_cases Hs; try done.
  all: try (apply (Hframe _ _ (groups s)); [|done]; intros x; by grp_simpl).
  - (* target < 1, group present *)
    case_decide as Hk; [subst k0|].
    + unfold tracked. rewrite decide_False by lia. simpl.
      apply lookup_delete_eq.
    + apply Hframe; [done|]. by apply lookup_delete_ne.
  - (* target < 1, group absent *)
    case_decide as Hk; [subst k0|done].
    unfold tracked. by rewrite decide_False by lia.
  - (* target >= 1, group present *)
    match goal with Hg : groups s !! k0 = Some ?n |- _ =>
      rename Hg into Hk0; rename n into g0 end.
    destruct (Hreg _ _ Hk0) as (grp & Hgrp & Hkey).
    case_decide as Hk; [subst k0|].
    + unfold tracked. rewrite decide_True by lia. simpl.
      exists g0, (group_SetTarget target grp). split_and!; [congruence| |by grp_simpl].
      by rewrite list_lookup_alter_eq, Hgrp.
    + unfold tracked in *. destruct o as [t|]; [case_decide|]; try done.
      destruct Htr as (gk & g & Hgk & Hg & Ht).
      exists gk, g. split_and!; try done. simpl.
      rewrite list_lookup_alter_ne; [done|].
      intros ->. destruct (Hreg _ _ Hgk) as (g' & Hg' & Hkey'). congruence.
  - (* target >= 1, group absent *)
    match goal with Hg : groups s !! k0 = None |- _ => rename Hg into Hk0 end.
    case_decide as Hk; [subst k0|].
    + unfold tracked. rewrite decide_True by lia. simpl.
      eexists _, _. split_and!; [apply lookup_insert_eq|apply list_lookup_middle|];
        done.
    + unfold tracked in *. simpl.
      destruct o as [t|]; [case_decide|]; rewrite lookup_insert_ne by done;
        try done.
      destruct Htr as (gk & g & Hgk & Hg & Ht).
      exists gk, g. split_and!; try done. by apply lookup_app_l_Some.
Qed.

Lemma tracked_exec k tr : ∀ s s' o,
  registry_ok s → tracked k s o → exec tr s = Some s' →
  tracked k s' match last_Set k tr with Some t => Some t | None => o end.
Proof.
  induction tr as [|e tr IH]; intros s s' o Hreg Htr Hex; simpl in Hex.
  - by simplify_eq.
  - destruct (step e s) as [s1|] eqn:He; simpl in Hex; [|done].
    pose proof (tracked_step _ _ _ _ _ Hreg Htr He) as Htr1.
    pose proof (registry_ok_step _ _ _ Hreg He) as Hreg1.
    pose proof (IH _ _ _ Hreg1 Htr1 Hex) as Hfin.
    simpl. destruct (last_Set k tr); [done|].
    destruct e; try done. by case_decide.
Qed.

Lemma tracked_Get k s o :
  tracked k s o →
  match o with
  | Some t =>
      if decide (1 ≤ t)%Z then Target (fst (pool_Get k s)) = t
      else fst (pool_Get k s) = Counts_zero
  | None => fst (pool_Get k s) = Counts_zero
  end.
Proof.
  unfold tracked, pool_Get. destruct o as [t|]; [case_decide|].
  - intros (gi & g & -> & -> & Ht). done.
  - by intros ->.
  - by intros ->.
Qed.

(** ** [Release] *)

Lemma step_grantC e s s' l : step e s = Some s' → l ∈ grantC s → l ∈ grantC s'.
Proof.
  intros Hs Hl. step_cases Hs; simpl; try done.
  apply elem_of_app. by left.
Qed.

Lemma step_released e s s' l : step e s = Some s' → released s l → released s' l.
Proof.
  intros Hs (lo & Hlo & Hrel). unfold released.
  step_cases Hs; simpl; eauto.
  - match goal with |- context [<[?l1 := ?x]> _] =>
      destruct (decide (l1 = l)) as [->|Hne] end.
    + eexists. split;
        [rewrite list_lookup_insert_eq; [done|by eapply lookup_lt_Some]|done].
    + exists lo. by rewrite list_lookup_insert_ne.
  - exists lo. split; [|done]. by apply lookup_app_l_Some.
Qed.

Lemma exec_grantC tr : ∀ s s' l,
  exec tr s = Some s' → l ∈ grantC s → l ∈ grantC s'.
Proof.
  induction tr as [|e tr IH]; intros s s' l Hex Hl; simpl in Hex.
  - by simplify_eq.
  - destruct (step e s) as [s1|] eqn:He; simpl in Hex; [|done].
    eapply IH; [done|]. by eapply step_grantC.
Qed.

Lemma exec_released tr : ∀ s s' l,
  exec tr s = Some s' → released s l → released s' l.
Proof.
  induction tr as [|e tr IH]; intros s s' l Hex Hl; simpl in Hex.
  - by simplify_eq.
  - destruct (step e s) as [s1|] eqn:He; simpl in Hex; [|done].
    eapply IH; [done|]. by eapply step_released.
Qed.

Lemma Release_released s l : released s l → lease_Release l s = s.
Proof. intros (lo & Hlo & Hrel). unfold lease_Release. by rewrite Hlo, Hrel. Qed.

Lemma pool_Set_start k t s :
  (1 ≤ t)%Z → groups s !! k = None → pool_Set k t s = pool_start k t s.
Proof. intros Ht Hk. unfold pool_Set. rewrite decide_False by lia. by rewrite Hk. Qed.

Lemma pool_Set_delete k s gi :
  groups s !! k = Some gi →
  pool_Set k 0 s = with_groups (delete k (groups s)) (on_group gi group_cancel s).
Proof. intros Hk. unfold pool_Set, pool_del. simpl. by rewrite Hk. Qed.


(** ** Counting the leases that are out *)

Lemma count_if_ext p q xs :
  (∀ x, x ∈ xs → p x = q x) → count_if p xs = count_if q xs.
Proof.
  induction xs as [|x xs IH]; intros Hpq; simpl; [done|].
  rewrite (Hpq x) by apply list_elem_of_here.
  rewrite IH; [done|]. intros y Hy. apply Hpq. by apply list_elem_of_further.
Qed.

Lemma count_if_app p xs ys :
  count_if p (xs ++ ys) = count_if p xs + count_if p ys.
Proof. induction xs as [|x xs IH]; simpl; [done|]. rewrite IH. lia. Qed.

Lemma count_if_flip p q xs x0 :
  NoDup xs → x0 ∈ xs → p x0 = true → q x0 = false →
  (∀ x, x ∈ xs → x ≠ x0 → q x = p x) →
  count_if p xs = S (count_if q xs).
Proof.
  induction xs as [|x xs IH]; intros Hnd Hin Hp Hq Hpq.
  - by apply elem_of_nil in Hin.
  - apply NoDup_cons in Hnd as [Hx Hnd]. simpl.
    destruct (decide (x = x0)) as [->|Hne].
    + rewrite Hp, Hq. simpl. f_equal. apply count_if_ext.
      intros y Hy. symmetry. apply Hpq; [by apply list_elem_of_further|].
      intros ->. done.
    + apply elem_of_cons in Hin as [->|Hin]; [done|].
      rewrite (Hpq x) by (done || apply list_elem_of_here).
      rewrite IH; [lia|done..|].
      intros y Hy Hy0. apply Hpq; [by apply list_elem_of_further|done].
Qed.

Lemma is_outstanding_alloc ls new gi l :
  l < length ls → is_outstanding (ls ++ [new]) gi l = is_outstanding ls gi l.
Proof. intros Hl. unfold is_outstanding. by rewrite lookup_app_l. Qed.

Lemma is_outstanding_other ls l0 lo gi l :
  l ≠ l0 → is_outstanding (<[l0 := lo]> ls) gi l = is_outstanding ls gi l.
Proof. intros Hl. unfold is_outstanding. by rewrite list_lookup_insert_ne. Qed.

Lemma is_outstanding_group ls l0 lo lo' gi l :
  ls !! l0 = Some lo → lease_group lo' = lease_group lo → gi ≠ lease_group lo →
  is_outstanding (<[l0 := lo']> ls) gi l = is_outstanding ls gi l.
Proof.
  intros Hlo Hgrp Hgi. unfold is_outstanding.
  destruct (decide (l = l0)) as [->|Hne]; [|by rewrite list_lookup_insert_ne].
  rewrite list_lookup_insert_eq by (by eapply lookup_lt_Some). rewrite Hlo.
  rewrite !bool_decide_eq_false_2; [done|congruence..].
Qed.

Lemma count_if_none p xs : (∀ x, x ∈ xs → p x = false) → count_if p xs = 0.
Proof.
  induction xs as [|x xs IH]; intros Hp; simpl; [done|].
  rewrite (Hp x) by apply list_elem_of_here.
  rewrite IH; [done|]. intros y Hy. apply Hp. by apply list_elem_of_further.
Qed.

Lemma outstanding_fresh s gi :
  leases_ok s → length (heap s) ≤ gi → outstanding s gi = 0.
Proof.
  intros Hlok Hgi. apply count_if_none. intros l Hl. unfold is_outstanding.
  destruct (leases s !! l) as [lo|] eqn:Hlo; [|done].
  apply (lease_group_ok _ Hlok) in Hlo.
  rewrite bool_decide_eq_false_2; [done|lia].
Qed.

Lemma count_if_alloc ls new gi xs :
  (∀ x, x ∈ xs → x < length ls) →
  count_if (is_outstanding (ls ++ [new]) gi) xs
  = count_if (is_outstanding ls gi) xs.
Proof.
  intros Hxs. apply count_if_ext. intros x Hx.
  apply is_outstanding_alloc. by apply Hxs.
Qed.

Lemma count_if_release_other ls l lo gi xs :
  ls !! l = Some lo → gi ≠ lease_group lo →
  count_if (is_outstanding (<[l := with_relOnce true lo]> ls) gi) xs
  = count_if (is_outstanding ls gi) xs.
Proof.
  intros Hlo Hgi. apply count_if_ext. intros x Hx.
  by apply (is_outstanding_group _ _ lo).
Qed.

Lemma count_if_release ls l lo xs :
  NoDup xs → l ∈ xs → ls !! l = Some lo → relOnce lo = false →
  count_if (is_outstanding ls (lease_group lo)) xs
  = S (count_if (is_outstanding (<[l := with_relOnce true lo]> ls)
                  (lease_group lo)) xs).
Proof.
  intros Hnd Hl Hlo Hrel. apply (count_if_flip _ _ _ l); try done.
  - unfold is_outstanding. rewrite Hlo, Hrel.
    by rewrite bool_decide_eq_true_2.
  - unfold is_outstanding.
    rewrite list_lookup_insert_eq by (by eapply lookup_lt_Some). simpl.
    by rewrite andb_false_r.
  - intros x Hx Hne. by apply is_outstanding_other.
Qed.

Lemma lookup_release_Some (ls : list lease) l lo l' lo' :
  ls !! l = Some lo → <[l := with_relOnce true lo]> ls !! l' = Some lo' →
  ∃ lo'', ls !! l' = Some lo'' ∧ lease_group lo'' = lease_group lo'
          ∧ id lo'' = id lo'.
Proof.
  intros Hlo Hlo'.
  apply list_lookup_insert_Some in Hlo' as [(-> & <- & _)|[_ Hlo']]; eauto.
Qed.

Lemma wrap64_minus_l a b : wrap64 (wrap64 a - b) = wrap64 (a - b).
Proof. unfold wrap64. apply Zminus_mod_idemp_l. Qed.

Lemma wrap64_plus_l a b : wrap64 (wrap64 a + b) = wrap64 (a + b).
Proof. unfold wrap64. apply Zplus_mod_idemp_l. Qed.

Lemma pending_incr_not g : at_pc g ≠ AtIncr → pending_incr g = 0%Z.
Proof. intros Hpc. unfold pending_incr. by rewrite decide_False. Qed.

(** Introduce the group of a statement about every group of the heap and
    split on whether it is the one the action touched (or started). *)
Ltac intro_group Hg :=
  intros ? ?;
  lazymatch goal with
  | |- ∀ l : nat, _ => intros ?; intros Hg
  | |- _ => intros Hg
  end.

Tactic Notation "on_touched" ident(Hg) :=
  intro_group Hg;
  apply lookup_alter_Some in Hg as (? & Hg & [[-> ->]|[? ->]]); eauto.

Tactic Notation "on_started" ident(Hg) :=
  intro_group Hg;
  apply lookup_snoc_Some in Hg as [[_ Hg]|[-> <-]]; eauto.

Lemma flow_ok_step e s s' :
  heap_ok s → leases_ok s → flow_ok s → step e s = Some s' → flow_ok s'.
Proof.
  intros Hhok Hlok [Hnd Hrg Hcg Hcl Hrt Hob Hao Hab] Hs.
  step_cases Hs; try done.
  - (* del *) split; simpl; try done. all: on_touched Hg0.
    all: grp_simpl; eauto. exact (Hao _ _ Hg0).
  - (* SetTarget *) split; simpl; try done. all: on_touched Hg0.
    all: unfold pending_incr; grp_simpl; eauto.
  - (* start *) split; simpl; try done. all: on_started Hg0.
    all: simpl; try done.
    + change (Z.of_nat (outstanding s (length (heap s))) < uint64_mod)%Z.
      by rewrite outstanding_fresh.
    + change (0 = wrap64 (Z.of_nat (outstanding s (length (heap s))) - 0))%Z.
      by rewrite outstanding_fresh.
  - (* Release *)
    match goal with
    | Hl : leases s !! ?l = Some ?lo, Hr : relOnce ?lo = false |- _ =>
        rename Hl into Hlo; rename Hr into Hrel;
        pose proof (count_if_release _ _ _ _ Hnd e Hlo Hrel) as Hcount;
        pose proof (λ gi, count_if_release_other (leases s) l lo gi (grantC s) Hlo)
          as Hother
    end.
    split; simpl; try done.
    + intros l1 lo1 Hlo1 Hrel1.
      apply list_lookup_insert_Some in Hlo1 as [(-> & <- & _)|[_ Hlo1]]; eauto.
    + on_touched Hg0; unfold pending_incr; grp_simpl; eauto.
    + on_touched Hg0; unfold pending_incr; grp_simpl; intros Hn l' lo' Hlo' Hgi;
        destruct (lookup_release_Some _ _ _ _ _ Hlo Hlo') as (lo2 & Hlo2 & Hg2 & _);
        eapply Hcl; eauto; congruence.
    + on_touched Hg0; unfold pending_incr; grp_simpl; eauto.
    + on_touched Hg0.
      * pose proof (Hob _ _ Hg0) as Hb. unfold outstanding in *. simpl.
        rewrite Hcount in Hb. lia.
      * pose proof (Hob _ _ Hg0) as Hb. unfold outstanding in *. simpl.
        by rewrite Hother.
    + on_touched Hg0.
      * unfold pending_incr. grp_simpl. rewrite (Hao _ _ Hg0).
        unfold outstanding, pending_incr. simpl. rewrite Hcount.
        rewrite wrap64_minus_l. f_equal. lia.
      * rewrite (Hao _ _ Hg0). unfold outstanding. simpl. by rewrite Hother.
    + on_touched Hg0. grp_simpl. intros Hpc.
      pose proof (Hab _ _ Hg0 Hpc) as Hle.
      pose proof (Hob _ _ Hg0) as Hb. pose proof (Hao _ _ Hg0) as Ha.
      rewrite pending_incr_not in Ha by (destruct Hpc; congruence).
      unfold outstanding in *. rewrite Hcount in *.
      rewrite wrap64_small in Ha by (unfold is_uint64; lia).
      rewrite wrap64_small by (unfold is_uint64; lia). lia.
  - (* Load *)
    match goal with Hh : heap s !! _ = Some _ |- _ => rename Hh into Hg end.
    split; simpl; try done.
    all: on_touched Hg0; rewrite Hg in Hg0; injection Hg0 as <-; simpl.
    + intros Hn. rewrite (Hcg _ _ _ Hg Hn). split; congruence.
    + apply (Target_uint64 _ (Hhok _ _ Hg)).
    + rewrite (Hao _ _ Hg). unfold pending_incr. simpl.
      by rewrite decide_False by congruence.
    + intros _. unfold group_loadCounts. lia.
  - (* Check, candidate kept *)
    match goal with Hh : heap s !! _ = Some _ |- _ => rename Hh into Hg end.
    match goal with Hh : nextLease _ = Some _ |- _ => rename Hh into Hnl end.
    split; simpl; try done.
    all: on_touched Hg0; rewrite Hg in Hg0; injection Hg0 as <-; simpl.
    + intros [= <-]. rewrite (Hcg _ _ _ Hg Hnl). split; congruence.
    + intros [= <-]. by eapply Hcl.
    + by eapply Hrt.
    + rewrite (Hao _ _ Hg). unfold pending_incr. simpl.
      by rewrite decide_False by congruence.
    + intros _. apply (Hab _ _ Hg). by left.
  - (* Check, candidate allocated *)
    match goal with Hh : heap s !! _ = Some _ |- _ => rename Hh into Hg end.
    match goal with Hh : nextLease _ = None |- _ => rename Hh into Hnl end.
    pose proof (λ new gj, count_if_alloc (leases s) new gj (grantC s)
                            (grantC_ok _ Hlok)) as Hcount.
    split; simpl; try done.
    + intros l1 lo1 Hlo1 Hrel1.
      apply lookup_snoc_Some in Hlo1 as [[_ Hlo1]|[_ <-]]; [by eauto|done].
    + on_touched Hg0. rewrite Hg in Hg0; injection Hg0 as <-; simpl.
      intros [= <-]. split; [|done].
      intros Hin%(grantC_ok _ Hlok). lia.
    + intro_group Hg0. intros Hn l' lo' Hlo' Hgrp.
      apply lookup_snoc_Some in Hlo' as [[Hlt Hlo']|[-> <-]].
      * apply lookup_alter_Some in Hg0 as (? & Hg0 & [[-> ->]|[? ->]]).
        -- simpl in Hn. injection Hn as <-. lia.
        -- by eapply Hcl.
      * apply lookup_alter_Some in Hg0 as (? & Hg0 & [[-> ->]|[? ->]]).
        -- simpl in Hn. injection Hn as <-. lia.
        -- done.
    + on_touched Hg0. rewrite Hg in Hg0; injection Hg0 as <-; simpl.
      by eapply Hrt.
    + intro_group Hg0. apply lookup_alter_Some in Hg0 as (g1 & Hg0 & _).
      unfold outstanding. simpl. rewrite Hcount. exact (Hob _ _ Hg0).
    + intro_group Hg0.
      apply lookup_alter_Some in Hg0 as (g1 & Hg0 & [[-> ->]|[? ->]]);
        unfold outstanding; simpl; rewrite Hcount; rewrite (Hao _ _ Hg0);
        [|done].
      rewrite Hg in Hg0; injection Hg0 as <-. unfold pending_incr. simpl.
      by rewrite decide_False by congruence.
    + on_touched Hg0. rewrite Hg in Hg0; injection Hg0 as <-; simpl.
      intros _. apply (Hab _ _ Hg). by left.
  - (* Check, idle *)
    match goal with Hh : heap s !! _ = Some _ |- _ => rename Hh into Hg end.
    split; simpl; try done.
    all: on_touched Hg0; rewrite Hg in Hg0; injection Hg0 as <-; simpl.
    + intros Hn. rewrite (Hcg _ _ _ Hg Hn). split; congruence.
    + by eapply Hrt.
    + rewrite (Hao _ _ Hg). unfold pending_incr. simpl.
      by rewrite decide_False by congruence.
    + intros _. apply (Hab _ _ Hg). by left.
  - (* Send *)
    match goal with Hh : heap s !! _ = Some _ |- _ => rename Hh into Hg end.
    match goal with Hh : nextLease _ = Some _ |- _ => rename Hh into Hnl end.
    match goal with Hh : grant _ = true |- _ => rename Hh into Hgr end.
    match goal with Hh : at_pc _ = AtSelect |- _ => rename Hh into Hpc end.
    destruct (nextLease_ok _ Hlok _ _ _ Hg Hnl) as (lo & Hlo & Hlg).
    assert (n ∉ grantC s) as Hnin.
    { rewrite (Hcg _ _ _ Hg Hnl). congruence. }
    assert (relOnce lo = false) as Hrel.
    { destruct (relOnce lo) eqn:Hr; [|done]. by apply Hrg in Hlo. }
    assert (is_outstanding (leases s) gi n = true) as Hout.
    { unfold is_outstanding. rewrite Hlo, Hrel.
      by rewrite bool_decide_eq_true_2. }
    assert (∀ gj, gj ≠ gi → is_outstanding (leases s) gj n = false) as Hout'.
    { intros gj Hne. unfold is_outstanding. rewrite Hlo.
      rewrite bool_decide_eq_false_2; [done|congruence]. }
    pose proof (Hao _ _ Hg) as Ha. pose proof (Hob _ _ Hg) as Hb.
    rewrite pending_incr_not in Ha by congruence.
    rewrite wrap64_small in Ha by (unfold is_uint64; lia).
    destruct (offer_granting _ (Hhok _ _ Hg) Hpc Hgr) as [Hlt _].
    pose proof (Hab _ _ Hg (or_intror Hpc)) as Hle.
    pose proof (Hrt _ _ Hg) as [_ Hrt1].
    split; simpl; try done.
    + apply NoDup_app. split_and!; [done| |apply NoDup_singleton].
      intros x Hx ->%list_elem_of_singleton. done.
    + intros l1 lo1 Hlo1 Hrel1. apply elem_of_app. left. by eapply Hrg.
    + intro_group Hg0.
      apply lookup_alter_Some in Hg0 as (g1 & Hg0 & [[-> ->]|[? ->]]).
      * simpl. intros [= <-]. split; [done|]. intros _.
        apply elem_of_app. right. by apply list_elem_of_singleton.
      * intros Hn1. rewrite <- (Hcg _ _ _ Hg0 Hn1).
        rewrite elem_of_app, list_elem_of_singleton.
        destruct (nextLease_ok _ Hlok _ _ _ Hg0 Hn1) as (lo1 & Hlo1 & Hlg1).
        split; [|by left]. intros [?| ->]; [done|]. congruence.
    + on_touched Hg0. rewrite Hg in Hg0; injection Hg0 as <-; simpl.
      intros [= <-]. by eapply Hcl.
    + on_touched Hg0. rewrite Hg in Hg0; injection Hg0 as <-; simpl.
      by eapply Hrt.
    + intro_group Hg0. unfold outstanding in *. simpl.
      rewrite count_if_app. simpl.
      apply lookup_alter_Some in Hg0 as (g1 & Hg0 & [[-> ->]|[? ->]]).
      * rewrite Hout. lia.
      * rewrite Hout' by done. pose proof (Hob _ _ Hg0). lia.
    + intro_group Hg0. unfold outstanding in *. simpl.
      rewrite count_if_app. simpl.
      apply lookup_alter_Some in Hg0 as (g1 & Hg0 & [[-> ->]|[? ->]]).
      * rewrite Hout. rewrite Hg in Hg0; injection Hg0 as <-.
        unfold pending_incr. simpl. rewrite Ha.
        rewrite wrap64_small by (unfold is_uint64; lia). lia.
      * rewrite Hout' by done. rewrite (Hao _ _ Hg0). f_equal. lia.
    + on_touched Hg0. simpl. by intros [|].
  - (* Incr *)
    match goal with Hh : heap s !! _ = Some _ |- _ => rename Hh into Hg end.
    split; simpl; try done.
    all: on_touched Hg0; rewrite Hg in Hg0; injection Hg0 as <-;
      unfold pending_incr; grp_simpl; try done.
    + by eapply Hrt.
    + rewrite (Hao _ _ Hg). unfold pending_incr.
      rewrite decide_True by done. rewrite wrap64_plus_l.
      unfold outstanding. simpl. apply (f_equal wrap64). lia.
    + by intros [|].
  - (* Wake *)
    match goal with Hh : heap s !! _ = Some _ |- _ => rename Hh into Hg end.
    split; simpl; try done.
    all: on_touched Hg0; rewrite Hg in Hg0; injection Hg0 as <-;
      unfold pending_incr; grp_simpl; try done.
    + intros Hn. rewrite (Hcg _ _ _ Hg Hn). split; congruence.
    + by eapply Hrt.
    + rewrite (Hao _ _ Hg). unfold pending_incr.
      by rewrite decide_False by congruence.
    + by intros [|].
  - (* Exit *)
    match goal with Hh : heap s !! _ = Some _ |- _ => rename Hh into Hg end.
    split; simpl; try done.
    all: on_touched Hg0; rewrite Hg in Hg0; injection Hg0 as <-;
      unfold pending_incr; grp_simpl; try done.
    + intros Hn. rewrite (Hcg _ _ _ Hg Hn). split; congruence.
    + by eapply Hrt.
    + rewrite (Hao _ _ Hg). unfold pending_incr.
      by rewrite decide_False by congruence.
    + by intros [|].
Qed.

Lemma grant_order_ok_step e s s' :
  leases_ok s → flow_ok s → grant_order_ok s → step e s = Some s' →
  grant_order_ok s'.
Proof.
  intros Hlok Hfok Hgo Hs. step_cases Hs; try done.
  - (* Release *)
    intros i j l1 l2 lo1 lo2 Hij Hi Hj Hlo1 Hlo2 Hgrp. simpl in *.
    match goal with Hl : leases s !! _ = Some _ |- _ => rename Hl into Hlo end.
    destruct (lookup_release_Some _ _ _ _ _ Hlo Hlo1) as (lo1' & Hlo1' & Hg1 & _).
    destruct (lookup_release_Some _ _ _ _ _ Hlo Hlo2) as (lo2' & Hlo2' & Hg2 & _).
    eapply (Hgo i j); eauto. congruence.
  - (* allocation *)
    intros i j l1 l2 lo1 lo2 Hij Hi Hj Hlo1 Hlo2 Hgrp. simpl in *.
    pose proof (grantC_ok _ Hlok _ (list_elem_of_lookup_2 _ _ _ Hi)) as Hl1.
    pose proof (grantC_ok _ Hlok _ (list_elem_of_lookup_2 _ _ _ Hj)) as Hl2.
    rewrite lookup_app_l in Hlo1, Hlo2 by done.
    by eapply (Hgo i j).
  - (* Send *)
    intros i j l1 l2 lo1 lo2 Hij Hi Hj Hlo1 Hlo2 Hgrp. simpl in *.
    match goal with Hh : heap s !! _ = Some _ |- _ => rename Hh into Hg end.
    match goal with Hh : nextLease _ = Some _ |- _ => rename Hh into Hnl end.
    match goal with Hh : at_pc _ = AtSelect |- _ => rename Hh into Hpc end.
    apply lookup_snoc_Some in Hj as [[Hjlt Hj]|[-> ->]].
    + rewrite lookup_app_l in Hi by lia. by eapply (Hgo i j).
    + rewrite lookup_app_l in Hi by lia.
      destruct (nextLease_ok _ Hlok _ _ _ Hg Hnl) as (lo & Hlo & Hlg).
      assert (l1 ≤ l2) as Hle.
      { eapply (candidate_latest _ Hfok _ _ _ Hg Hnl); [done|]. congruence. }
      assert (l1 ≠ l2) as Hne.
      { intros ->. apply list_elem_of_lookup_2 in Hi.
        apply (candidate_granted _ Hfok _ _ _ Hg Hnl) in Hi. congruence. }
      lia.
Qed.

(** Everything that holds in every reachable state. *)
Lemma invariants_reachable parent s :
  reachable parent s →
  registry_ok s ∧ heap_ok s ∧ leases_ok s ∧ flow_ok s ∧ grant_order_ok s.
Proof.
  intros Hreach. split; [by eapply registry_ok_reachable|].
  revert s Hreach. apply reachable_invariant.
  - split_and!.
    + by intros gi g Hg.
    + split; simpl; try done. intros l Hl. by apply elem_of_nil in Hl.
    + split; simpl; try done. apply NoDup_nil_2.
    + by intros i j l1 l2 lo1 lo2 Hij Hi.
  - intros e s s' (Hh & Hl & Hf & Hg) Hs. split_and!.
    + by eapply heap_ok_step.
    + by eapply leases_ok_step.
    + by eapply flow_ok_step.
    + by eapply grant_order_ok_step.
Qed.

(** ** Granting *)

Lemma run_send_enabled gi s g :
  heap s !! gi = Some g →
  is_Some (step (RunSend gi) s)
  ↔ at_pc g = AtSelect ∧ grant g = true ∧ is_Some (nextLease g).
Proof.
  intros Hg. simpl. unfold run_send. rewrite Hg. simpl. split.
  - intros [s' Hs']. case_decide; [|done].
    destruct (grant g); [|done]. destruct (nextLease g); [|done]. eauto.
  - intros (Hpc & -> & [l ->]). rewrite decide_True by done. simpl. eauto.
Qed.

(** ** [Stop] *)

Lemma step_ctx_done e s s' :
  step e s = Some s' → ctx_done (ctx s) = true → ctx_done (ctx s') = true.
Proof. intros Hs Hd. step_cases Hs; simpl; done. Qed.

Lemma step_Exited e s s' gi g :
  step e s = Some s' → heap s !! gi = Some g → at_pc g = Exited →
  ∃ g', heap s' !! gi = Some g' ∧ at_pc g' = Exited.
Proof.
  intros Hs Hg Hpc. step_cases Hs; simpl; eauto.
  all: try (exists g; split; [by apply lookup_app_l_Some|done]).
  all: rewrite list_lookup_alter; case_decide; [|by eauto]; subst.
  all: try (simplify_eq; congruence).
  all: rewrite Hg; simpl; eexists; split; [done|]; by grp_simpl.
Qed.

Lemma exec_ctx_done tr : ∀ s s',
  exec tr s = Some s' → ctx_done (ctx s) = true → ctx_done (ctx s') = true.
Proof.
  induction tr as [|e tr IH]; intros s s' Hex Hd; simpl in Hex.
  - by simplify_eq.
  - destruct (step e s) as [s1|] eqn:He; simpl in Hex; [|done].
    eapply IH; [done|]. by eapply step_ctx_done.
Qed.

Lemma exec_Exited tr : ∀ s s' gi g,
  exec tr s = Some s' → heap s !! gi = Some g → at_pc g = Exited →
  ∃ g', heap s' !! gi = Some g' ∧ at_pc g' = Exited.
Proof.
  induction tr as [|e tr IH]; intros s s' gi g Hex Hg Hpc; simpl in Hex.
  - simplify_eq. eauto.
  - destruct (step e s) as [s1|] eqn:He; simpl in Hex; [|done].
    destruct (step_Exited _ _ _ _ _ He Hg Hpc) as (g1 & Hg1 & Hpc1).
    by eapply IH.
Qed.

(** ** Lease ids *)

Lemma lease_ids_distinct s l1 l2 lo1 lo2 :
  leases_ok s → (Z.of_nat (length (leases s)) ≤ uint64_mod)%Z →
  leases s !! l1 = Some lo1 → leases s !! l2 = Some lo2 →
  id lo1 = id lo2 → l1 = l2.
Proof.
  intros Hlok Hlen Hlo1 Hlo2.
  rewrite (lease_id_ok _ Hlok _ _ Hlo1), (lease_id_ok _ Hlok _ _ Hlo2).
  apply lookup_lt_Some in Hlo1, Hlo2. unfold wrap64, uint64_mod in *.
  intros Heq.
  destruct (decide (Z.of_nat l1 + 1 = 2 ^ 64)%Z) as [E1|N1];
    destruct (decide (Z.of_nat l2 + 1 = 2 ^ 64)%Z) as [E2|N2].
  - lia.
  - rewrite E1, Z_mod_same_full in Heq.
    rewrite Z.mod_small in Heq by lia. lia.
  - rewrite E2, Z_mod_same_full in Heq.
    rewrite Z.mod_small in Heq by lia. lia.
  - rewrite !Z.mod_small in Heq by lia. lia.
Qed.

Lemma step_keeps_candidate e s s' gi g l :
  step e s = Some s' → e ≠ RunIncr gi →
  heap s !! gi = Some g → nextLease g = Some l →
  nextLease <$> heap s' !! gi = Some (Some l).
Proof.
  intros Hs He Hg Hn. step_cases Hs; simpl; rewrite ?Hg; simpl;
    try (by rewrite Hn).
  all: try (by rewrite (lookup_app_l_Some _ _ _ _ Hg); simpl; rewrite Hn).
  all: rewrite list_lookup_alter; case_decide;
    [|by rewrite Hg; simpl; rewrite Hn]; subst.
  all: try done.
  all: simplify_eq; rewrite ?Hg; simpl; grp_simpl.
  all: repeat match goal with
              | Hh : heap _ !! _ = Some _ |- _ => rewrite Hh; clear Hh
              end; simpl; congruence.
Qed.

(** ** The id counter wraps around *)

Lemma one_round_ready s n :
  round_ready s n →
  ∃ s', exec (one_round n) s = Some s' ∧ round_ready s' (S n).
Proof.
  intros (Hlen & g & Hg & Hpc & Hnl & Hc).
  destruct s as [ids reg hp ls gc cx]. simpl in *.
  destruct hp as [|g0 hp]; [done|]. injection Hg as ->.
  destruct g as [c k nc cn rc nl gr pc]. simpl in *. subst.
  eexists. split.
  - unfold one_round. simpl.
    unfold lease_Release. simpl.
    rewrite decide_True
      by (apply elem_of_app; right; by apply list_elem_of_singleton).
    simpl. rewrite list_lookup_middle by done. simpl. reflexivity.
  - split; simpl.
    + rewrite length_insert, length_app. simpl. lia.
    + eexists. split_and!; try done.
      all: unfold group_decrActive, group_incrActive; simpl;
        rewrite ?counts_notify, ?nextLease_notify, ?at_pc_notify; simpl;
        rewrite ?counts_notify; done.
Qed.

Lemma round_ready_reachable parent (k : K) n :
  ∃ s, reachable parent s ∧ round_ready s n.
Proof.
  induction n as [|n (s & Hreach & Hready)].
  - exists (pool_Set k 1 (NewPool parent)). split.
    + by exists [CallSet k 1%Z].
    + split; [done|]. eexists. by split_and!.
  - destruct (one_round_ready _ _ Hready) as (s' & Hex & Hready').
    exists s'. split; [by eapply reachable_exec|done].
Qed.

(** After 2^64 - 1 allocations the next candidate gets id 0, and it can be
    handed over. *)
Lemma wrapped_id_reachable parent (k : K) :
  ∃ s l, reachable parent s ∧ l ∈ grantC s ∧ lease_ID s l = Some 0%Z.
Proof.
  destruct (round_ready_reachable parent k (Z.to_nat (uint64_mod - 1)))
    as (s & Hreach & Hlen & g & Hg & Hpc & Hnl & Hc).
  pose proof (counter_ok _ (leases_ok_reachable _ _ Hreach)) as Hids.
  assert (Z.of_nat (length (leases s)) = uint64_mod - 1)%Z as Hlen'.
  { rewrite Hlen. apply Z2Nat.id. unfold uint64_mod. lia. }
  clear Hlen.
  destruct s as [ids reg hp ls gc cx]. simpl in *.
  destruct hp as [|g0 hp]; [done|]. injection Hg as ->.
  destruct g as [c k0 nc cn rc nl gr pc]. simpl in *. subst.
  eexists _, (length ls). split_and!.
  - eapply (reachable_exec _ [RunLoad 0; RunCheck 0; RunSend 0]);
      [exact Hreach|]. simpl. reflexivity.
  - simpl. apply elem_of_app. right. by apply list_elem_of_singleton.
  - unfold lease_ID. simpl. rewrite list_lookup_middle by done. simpl.
    f_equal. rewrite wrap64_plus_l. rewrite Hlen'.
    unfold wrap64. replace (uint64_mod - 1 + 1)%Z with uint64_mod by lia.
    apply Z_mod_same_full.
Qed.

(** ** The properties of the specification *)

(** C1: after any execution the Target that Get reports for a key is the
    target of the last Set on that key when that target is at least 1; Get
    reports the zero Counts when the last Set on the key had a target below 1
    and when no Set was made on the key.  A Set with a target of at least 1 on
    an absent key creates a group with Active = 0 and the given Target; on a
    present key it changes the Target and nothing else: Active, the registry,
    the other groups, the leases, the id counter and the context of the pool
    stay as they are, and so does every other field of the group itself (its
    key, its cancellation, the local variables and the position of its
    goroutine), except that the group is left notified. *)
Theorem Set_then_Get parent tr s k :
  exec tr (NewPool parent) = Some s →
  match last_Set k tr with
  | Some t =>
      if decide (1 ≤ t)%Z then Target (fst (pool_Get k s)) = t
      else fst (pool_Get k s) = Counts_zero
  | None => fst (pool_Get k s) = Counts_zero
  end
  ∧ ∀ t, is_uint64 t → (1 ≤ t)%Z →
      let s' := pool_Set k t s in
      match groups s !! k with
      | None => fst (pool_Get k s') = mkCounts t 0
      | Some gi =>
          fst (pool_Get k s') = mkCounts t (Active (fst (pool_Get k s)))
          ∧ groups s' = groups s
          ∧ (∀ gj, gj ≠ gi → heap s' !! gj = heap s !! gj)
          ∧ leases s' = leases s ∧ leaseIDs s' = leaseIDs s
          ∧ grantC s' = grantC s ∧ ctx s' = ctx s
          ∧ ∃ g g',
              heap s !! gi = Some g ∧ heap s' !! gi = Some g'
              ∧ counts g' = mkCounts t (Active (counts g))
              ∧ key g' = key g ∧ cancelled g' = cancelled g
              ∧ run_counts g' = run_counts g ∧ nextLease g' = nextLease g
              ∧ grant g' = grant g ∧ at_pc g' = at_pc g
              ∧ notifyC g' = notifyC (group_notify g)
      end.
Proof.
  intros Hex. split.
  - apply tracked_Get.
    apply (tracked_exec k tr (NewPool parent) s None) in Hex.
    + by destruct (last_Set k tr).
    + intros k' gi Hk'. simpl in Hk'. by rewrite lookup_empty in Hk'.
    + simpl. apply lookup_empty.
  - intros t Ht Hge s'. subst s'. unfold pool_Set.
    rewrite decide_False by lia.
    destruct (groups s !! k) as [gi|] eqn:Hk.
    + assert (registry_ok s) as Hreg by (eapply registry_ok_reachable; by eexists).
      destruct (Hreg _ _ Hk) as (g & Hg & Hkey).
      split_and!; try done.
      * unfold pool_Get. simpl. rewrite Hk, Hg.
        rewrite list_lookup_alter_eq, Hg. simpl. by grp_simpl.
      * intros gj Hne. simpl. by apply list_lookup_alter_ne.
      * exists g, (group_SetTarget t g). simpl.
        rewrite list_lookup_alter_eq, Hg. simpl.
        unfold group_SetTarget, group_notify. simpl.
        by case_decide.
    + unfold pool_Get, pool_start. simpl.
      rewrite lookup_insert_eq. by rewrite list_lookup_middle.
Qed.

(** C2, as the code has it: Active and Target are uint64 values; while the
    goroutine of a group is not between the hand-over of a lease and the
    incrActive that follows, Active is the number of leases of the group that
    were granted and not released; a lease can be handed over exactly when the
    goroutine waits in its select and the counts it loaded last had
    Active < Target, and then the current Active is below that loaded Target
    (below the current Target too if the counts did not change since); the
    incrActive that follows makes Active the number of leases that are out. *)
Theorem grant_follows_snapshot parent s gi g :
  reachable parent s → heap s !! gi = Some g →
  is_uint64 (Active (counts g)) ∧ is_uint64 (Target (counts g))
  ∧ (at_pc g ≠ AtIncr → Active (counts g) = Z.of_nat (outstanding s gi))
  ∧ (is_Some (step (RunSend gi) s)
     ↔ at_pc g = AtSelect ∧ (Active (run_counts g) < Target (run_counts g))%Z)
  ∧ (is_Some (step (RunSend gi) s) →
     (Active (counts g) < Target (run_counts g))%Z
     ∧ (counts g = run_counts g → (Active (counts g) < Target (counts g))%Z))
  ∧ (∀ s', step (RunIncr gi) s = Some s' →
     counts_at s' gi
     = Some (mkCounts (Target (counts g)) (wrap64 (Active (counts g) + 1)))
     ∧ wrap64 (Active (counts g) + 1) = Z.of_nat (outstanding s' gi)).
Proof.
  intros Hreach Hg.
  destruct (invariants_reachable _ _ Hreach) as (_ & Hhok & Hlok & Hfok & _).
  pose proof (Hhok _ _ Hg) as Hgok.
  assert (at_pc g ≠ AtIncr → Active (counts g) = Z.of_nat (outstanding s gi))
    as Hout.
  { intros Hpc. rewrite (Active_outstanding _ Hfok _ _ Hg).
    rewrite pending_incr_not by done. rewrite Z.sub_0_r. apply wrap64_small.
    pose proof (outstanding_bounded _ Hfok _ _ Hg). unfold is_uint64. lia. }
  assert (is_Some (step (RunSend gi) s)
          ↔ at_pc g = AtSelect
            ∧ (Active (run_counts g) < Target (run_counts g))%Z) as Hsend.
  { rewrite (run_send_enabled _ _ _ Hg). split.
    - intros (Hpc & Hgr & _). split; [done|].
      by apply (offer_granting _ Hgok).
    - intros [Hpc Hlt]. destruct (grant g) eqn:Hgr.
      + split_and!; try done. by apply (offer_granting _ Hgok).
      + by destruct (offer_idle _ Hgok Hpc Hgr). }
  split_and!; try done; try apply Hgok.
  - intros [Hpc Hlt]%Hsend.
    pose proof (Active_below_snapshot _ Hfok _ _ Hg (or_intror Hpc)) as Hle.
    split; [lia|]. intros Heq. rewrite Heq. lia.
  - intros s' Hs'. simpl in Hs'. unfold run_incr in Hs'.
    rewrite Hg in Hs'. simpl in Hs'. case_decide as Hpc; [|done].
    injection Hs' as <-.
    assert (counts_at
              (on_group gi
                 (λ g', with_run (run_counts g') None (grant g') AtLoad
                          (group_incrActive g')) s) gi
            = Some (mkCounts (Target (counts g))
                             (wrap64 (Active (counts g) + 1)))) as Hc.
    { unfold counts_at. simpl. rewrite list_lookup_alter_eq, Hg. simpl.
      by grp_simpl. }
    split; [done|].
    rewrite (Active_outstanding _ Hfok _ _ Hg). unfold pending_incr.
    rewrite decide_True by done. rewrite wrap64_plus_l.
    unfold outstanding. simpl.
    replace (Z.of_nat (count_if (is_outstanding (leases s) gi) (grantC s)) - 1 + 1)%Z
      with (Z.of_nat (count_if (is_outstanding (leases s) gi) (grantC s))) by lia.
    apply wrap64_small.
    pose proof (outstanding_bounded _ Hfok _ _ Hg). unfold outstanding in *.
    unfold is_uint64. lia.
Qed.

(** What Release does in every reachable state.  The first Release of a
    granted lease runs the uint64 decrement on the Active count of its group
    and leaves the Target, the registry and every other group alone; from
    then on, whatever else happens in between, a Release of that lease
    returns the state it was given.  The new count is Active - 1 whenever
    Active is at least 1, and Active is at least 1 whenever the goroutine of
    the group is not between the hand-over of a lease and the incrActive
    that follows. *)
Lemma Release_once parent s l :
  reachable parent s → l ∈ grantC s →
  ∃ lo g,
    leases s !! l = Some lo ∧ heap s !! lease_group lo = Some g ∧
    if relOnce lo then step (CallRelease l) s = Some s
    else ∃ s1,
      step (CallRelease l) s = Some s1
      ∧ counts_at s1 (lease_group lo)
        = Some (mkCounts (Target (counts g)) (wrap64 (Active (counts g) - 1)))
      ∧ (at_pc g ≠ AtIncr → (1 ≤ Active (counts g))%Z)
      ∧ ((1 ≤ Active (counts g))%Z →
         counts_at s1 (lease_group lo)
         = Some (mkCounts (Target (counts g)) (Active (counts g) - 1)))
      ∧ groups s1 = groups s
      ∧ (∀ gj, gj ≠ lease_group lo → heap s1 !! gj = heap s !! gj)
      ∧ ∀ tr s2, exec tr s1 = Some s2 → step (CallRelease l) s2 = Some s2.
Proof.
  intros Hreach Hl.
  destruct (invariants_reachable _ _ Hreach) as (_ & Hhok & Hlok & Hfok & _).
  destruct (lookup_lt_is_Some_2 (leases s) l) as [lo Hlo];
    [by apply Hlok|].
  destruct (lookup_lt_is_Some_2 (heap s) (lease_group lo)) as [g Hg];
    [by eapply (lease_group_ok _ Hlok)|].
  exists lo, g. split_and!; try done.
  destruct (relOnce lo) eqn:Hrel.
  - simpl. rewrite decide_True by done. f_equal.
    apply Release_released. by exists lo.
  - assert (counts_at (lease_Release l s) (lease_group lo)
            = Some (mkCounts (Target (counts g)) (wrap64 (Active (counts g) - 1))))
      as Hcounts.
    { unfold lease_Release, counts_at. rewrite Hlo, Hrel. simpl.
      rewrite list_lookup_alter_eq, Hg. simpl. by grp_simpl. }
    exists (lease_Release l s). split_and!.
    + simpl. by rewrite decide_True by done.
    + done.
    + intros Hpc. rewrite (Active_outstanding _ Hfok _ _ Hg).
      rewrite pending_incr_not, Z.sub_0_r by done.
      pose proof (outstanding_bounded _ Hfok _ _ Hg) as Hb.
      pose proof (count_if_release _ _ _ _ (grantC_NoDup _ Hfok) Hl Hlo Hrel)
        as Hcount.
      unfold outstanding in *. rewrite Hcount in *.
      rewrite wrap64_small by (unfold is_uint64; lia). lia.
    + intros Hpos. rewrite Hcounts. do 2 f_equal. apply wrap64_small.
      pose proof (Active_uint64 _ (Hhok _ _ Hg)) as HA.
      unfold is_uint64 in *. lia.
    + unfold lease_Release. by rewrite Hlo, Hrel.
    + intros gj Hne. unfold lease_Release. rewrite Hlo, Hrel. simpl.
      by apply list_lookup_alter_ne.
    + intros tr s2 Hex.
      assert (released (lease_Release l s) l) as Hr.
      { unfold released, lease_Release. rewrite Hlo, Hrel. simpl.
        eexists. split;
          [rewrite list_lookup_insert_eq; [done|by eapply lookup_lt_Some]|done]. }
      assert (l ∈ grantC (lease_Release l s)) as Hl1.
      { unfold lease_Release. by rewrite Hlo, Hrel. }
      simpl. rewrite decide_True by (by eapply exec_grantC).
      f_equal. apply Release_released. by eapply exec_released.
Qed.

(** C4, as the code has it: once Stop was called the context of the pool
    stays done; from then on a goroutine that waits in its select can always
    take the cancellation case, and a goroutine that has taken it never hands
    over a lease again; leases granted before Stop stay granted and their
    Release stays enabled.  (The select does not prefer the cancellation
    case, so a goroutine that has not returned yet can still hand over its
    candidate.) *)
Theorem Stop_is_final parent s tr s' :
  reachable parent s → exec tr (pool_Stop s) = Some s' →
  ctx_done (ctx s') = true
  ∧ (∀ gi g, heap s' !! gi = Some g → at_pc g = AtSelect →
     is_Some (step (RunExit gi) s'))
  ∧ (∀ gi g, heap s' !! gi = Some g → at_pc g = Exited →
     ∀ tr2 s2, exec tr2 s' = Some s2 → step (RunSend gi) s2 = None)
  ∧ (∀ l, l ∈ grantC s → l ∈ grantC s' ∧ is_Some (step (CallRelease l) s')).
Proof.
  intros Hreach Hex.
  assert (ctx_done (ctx s') = true) as Hd by (by eapply exec_ctx_done).
  split_and!; [done| | |].
  - intros gi g Hg Hpc. simpl. unfold run_exit. rewrite Hg. simpl.
    rewrite decide_True by done. unfold group_ctx_done. rewrite Hd.
    rewrite orb_true_r. eauto.
  - intros gi g Hg Hpc tr2 s2 Hex2.
    destruct (exec_Exited _ _ _ _ _ Hex2 Hg Hpc) as (g2 & Hg2 & Hpc2).
    simpl. unfold run_send. rewrite Hg2. simpl.
    rewrite decide_False; [done|congruence].
  - intros l Hl.
    assert (l ∈ grantC s') as Hl' by (by eapply exec_grantC).
    split; [done|]. simpl. rewrite decide_True by done. eauto.
Qed.

(** C5, as the code has it: when the goroutine of a group finds
    Active < Target in the counts it loaded and has no candidate, it allocates
    one whose id is the counter plus one (in uint64 arithmetic); when it has a
    candidate it allocates nothing and keeps it; no action other than the
    incrActive that follows the hand-over drops the candidate.  The counter is
    the number of candidates allocated so far, granted or not.  As long as no
    more than 2^64 leases were allocated their ids are pairwise different, and
    the leases of one group are handed over in the order of their
    allocation. *)
Theorem candidate_ids parent s gi g :
  reachable parent s → heap s !! gi = Some g →
  (∀ s', step (RunCheck gi) s = Some s' →
     match nextLease g with
     | Some l =>
         leaseIDs s' = leaseIDs s ∧ leases s' = leases s
         ∧ nextLease <$> heap s' !! gi = Some (Some l)
     | None =>
         if decide (Active (run_counts g) < Target (run_counts g))%Z
         then leaseIDs s' = wrap64 (leaseIDs s + 1)
              ∧ leases s' = leases s ++ [mkLease gi (wrap64 (leaseIDs s + 1)) false]
              ∧ nextLease <$> heap s' !! gi = Some (Some (length (leases s)))
         else leaseIDs s' = leaseIDs s ∧ leases s' = leases s
              ∧ nextLease <$> heap s' !! gi = Some None
     end)
  ∧ (∀ e s' l, step e s = Some s' → e ≠ RunIncr gi → nextLease g = Some l →
     nextLease <$> heap s' !! gi = Some (Some l))
  ∧ leaseIDs s = wrap64 (Z.of_nat (length (leases s)))
  ∧ (∀ l lo, leases s !! l = Some lo → id lo = wrap64 (Z.of_nat l + 1))
  ∧ ((Z.of_nat (length (leases s)) ≤ uint64_mod)%Z →
     ∀ l1 l2 lo1 lo2, leases s !! l1 = Some lo1 → leases s !! l2 = Some lo2 →
     id lo1 = id lo2 → l1 = l2)
  ∧ (∀ i j l1 l2 lo1 lo2,
       i < j → grantC s !! i = Some l1 → grantC s !! j = Some l2 →
       leases s !! l1 = Some lo1 → leases s !! l2 = Some lo2 →
       lease_group lo1 = lease_group lo2 → l1 < l2).
Proof.
  intros Hreach Hg.
  destruct (invariants_reachable _ _ Hreach) as (_ & Hhok & Hlok & Hfok & Hgo).
  split_and!.
  - intros s' Hs'. simpl in Hs'. unfold run_check in Hs'.
    rewrite Hg in Hs'. simpl in Hs'.
    case_decide as Hpc; [|done].
    destruct (nextLease g) as [l|] eqn:Hn.
    + case_decide; injection Hs' as <-; simpl;
        by rewrite list_lookup_alter_eq, Hg.
    + case_decide; injection Hs' as <-; simpl;
        by rewrite list_lookup_alter_eq, Hg.
  - intros e s' l Hs' He Hn. by eapply step_keeps_candidate.
  - apply Hlok.
  - apply Hlok.
  - intros Hlen l1 l2 lo1 lo2. by apply lease_ids_distinct.
  - apply Hgo.
Qed.

(** C7: Get returns the state it was given: it creates no group and changes
    no Counts; on an absent key it returns the zero Counts; and it is enabled
    in every state, so it never waits for anything. *)
Theorem Get_frame k s :
  snd (pool_Get k s) = s
  ∧ step (CallGet k) s = Some s
  ∧ (groups s !! k = None → fst (pool_Get k s) = Counts_zero).
Proof.
  unfold step, pool_Get. destruct (groups s !! k) as [gi|]; [|done].
  by destruct (heap s !! gi).
Qed.

(** C8: a wake-up buffer never holds more than one signal; notify with a
    signal pending changes nothing and notify always leaves exactly one
    pending; Get, Set, Stop and Release are enabled in every reachable state,
    so none of them ever waits to deliver a wake-up. *)
Theorem notify_coalesces parent s :
  reachable parent s →
  (∀ gi g, heap s !! gi = Some g →
     length (notifyC g) ≤ 1
     ∧ (length (notifyC g) = 1 → group_notify g = g)
     ∧ length (notifyC (group_notify g)) = 1)
  ∧ (∀ k, is_Some (step (CallGet k) s))
  ∧ (∀ k t, is_uint64 t → is_Some (step (CallSet k t) s))
  ∧ is_Some (step CallStop s)
  ∧ (∀ l, l ∈ grantC s → is_Some (step (CallRelease l) s)).
Proof.
  intros Hreach. pose proof (heap_ok_reachable _ _ Hreach) as Hhok.
  split_and!.
  - intros gi g Hg. pose proof (notifyC_bounded _ (Hhok _ _ Hg)) as Hn.
    unfold notifyC_cap in Hn. split_and!; [done| |].
    + intros H1. unfold group_notify, notifyC_cap.
      rewrite decide_False by lia. done.
    + by apply notifyC_notify_length.
  - intros k. simpl. eauto.
  - intros k t Ht. simpl. rewrite decide_True by done. eauto.
  - simpl. eauto.
  - intros l Hl. simpl. rewrite decide_True by done. eauto.
Qed.

(** C9: a lease built by NOPLease has ID 0 and the key it was given, and
    releasing it any number of times leaves every pool state as it is. *)
Theorem NOPLease_inert k s n :
  nopLease_ID (NOPLease k) = 0%Z
  ∧ nopLease_Key (NOPLease k) = k
  ∧ ID s (NOPLease k) = Some 0%Z
  ∧ Key s (NOPLease k) = Some k
  ∧ Nat.iter n (Release (NOPLease k)) s = s.
Proof.
  split_and!; try done. induction n as [|n IH]; [done|]. simpl. exact IH.
Qed.

(** C10, as the code has it: the counter of a new pool is 0, and as long as
    fewer than 2^64 leases were allocated, the lease at position l of the
    allocation order has id l + 1; this is at least 1, so it differs from the
    id 0 of every NOPLease. *)
Theorem granted_id_positive parent s l k :
  reachable parent s → l ∈ grantC s →
  (Z.of_nat l + 1 < uint64_mod)%Z →
  leaseIDs (NewPool parent) = 0%Z
  ∧ ∃ i, ID s l = Some i ∧ i = (Z.of_nat l + 1)%Z ∧ (1 ≤ i)%Z
         ∧ i ≠ nopLease_ID (NOPLease k)
         ∧ ID s l ≠ ID s (NOPLease k).
Proof.
  intros Hreach Hl Hlt. split; [done|].
  destruct (invariants_reachable _ _ Hreach) as (_ & _ & Hlok & _ & _).
  destruct (lookup_lt_is_Some_2 (leases s) l) as [lo Hlo];
    [by apply Hlok|].
  pose proof (lease_id_ok _ Hlok _ _ Hlo) as Hid.
  rewrite wrap64_small in Hid by (unfold is_uint64; lia).
  exists (id lo). simpl. unfold lease_ID, nopLease_ID. rewrite Hlo. simpl.
  split_and!; try done; try lia.
  intros [= Heq]. lia.
Qed.

(** ** More invariants *)

Lemma notifyC_notify_nonempty g : notifyC (group_notify g) ≠ [].
Proof.
  unfold group_notify. case_decide as Hlen; simpl.
  - intros Heq. by apply app_eq_nil in Heq as [_ ?].
  - intros Heq. rewrite Heq in Hlen. unfold notifyC_cap in Hlen. simpl in Hlen. lia.
Qed.

Lemma registry_inj s k1 k2 gi :
  registry_ok s → groups s !! k1 = Some gi → groups s !! k2 = Some gi → k1 = k2.
Proof.
  intros Hreg (g1 & Hg1 & <-)%Hreg (g2 & Hg2 & <-)%Hreg. congruence.
Qed.

Lemma registered_live_step e s s' :
  registry_ok s →
  (∀ k gi g, groups s !! k = Some gi → heap s !! gi = Some g →
             cancelled g = false) →
  step e s = Some s' →
  ∀ k gi g, groups s' !! k = Some gi → heap s' !! gi = Some g →
            cancelled g = false.
Proof.
  intros Hreg Hrl Hs. step_cases Hs; try done; simpl;
    intros k' gi' g' Hk' Hg'.
  all: try (apply lookup_alter_Some in Hg' as (g0 & Hg0 & [[-> ->]|[? ->]]);
            grp_simpl; by eauto).
  - (* del *)
    apply lookup_delete_Some in Hk' as [Hne Hk'].
    apply lookup_alter_Some in Hg' as (g0 & Hg0 & [[-> ->]|[? ->]]);
      [|by eauto].
    destruct Hne. by eapply registry_inj.
  - (* start *)
    apply lookup_insert_Some in Hk' as [[<- <-]|[_ Hk']].
    + rewrite list_lookup_middle in Hg' by done. by injection Hg' as <-.
    + destruct (Hreg _ _ Hk') as (g0 & Hg0 & _).
      rewrite (lookup_app_l_Some _ _ _ _ Hg0) in Hg'. injection Hg' as <-.
      by eauto.
Qed.

Lemma exited_done_step e s s' :
  (∀ gi g, heap s !! gi = Some g → at_pc g = Exited →
           group_ctx_done s g = true) →
  step e s = Some s' →
  ∀ gi g, heap s' !! gi = Some g → at_pc g = Exited →
          group_ctx_done s' g = true.
Proof.
  intros Hex Hs. step_cases Hs; try done; simpl; intros gj g' Hg'.
  all: try (apply lookup_alter_Some in Hg' as (g0 & Hg0 & [[-> ->]|[? ->]]);
            unfold group_ctx_done in *; grp_simpl;
            try done; try (by eauto); intros Hpc;
            first [ congruence
                  | by rewrite (Hex _ _ Hg0 Hpc)
                  | by apply orb_true_iff; right
                  | by simplify_eq ]).
  - apply lookup_snoc_Some in Hg' as [[_ Hg']|[_ <-]]; [|done].
    intros Hpc. exact (Hex _ _ Hg' Hpc).
  - intros _. unfold group_ctx_done. simpl. apply orb_true_r.
Qed.

Lemma wake_pending_step e s s' :
  (∀ gi g, heap s !! gi = Some g → at_pc g = AtCheck ∨ at_pc g = AtSelect →
           run_counts g ≠ counts g → notifyC g ≠ []) →
  step e s = Some s' →
  ∀ gi g, heap s' !! gi = Some g → at_pc g = AtCheck ∨ at_pc g = AtSelect →
          run_counts g ≠ counts g → notifyC g ≠ [].
Proof.
  intros Hwp Hs. step_cases Hs; try done; simpl; intros gj g' Hg'.
  all: try (apply lookup_alter_Some in Hg' as (g0 & Hg0 & [[-> ->]|[? ->]]);
            [|by eauto]).
  all: try (intros _ _; by apply notifyC_notify_nonempty).
  all: simplify_eq; simpl.
  all: try (by intros [|]).
  all: try (intros _ Hne; by eapply Hwp; eauto).
  - intros Hpc Hne. by eapply Hwp.
  - apply lookup_snoc_Some in Hg' as [[_ Hg']|[_ <-]]; [by eauto|].
    simpl. by intros [|].
Qed.

Lemma lease_accounted_step e s s' :
  leases_ok s → flow_ok s →
  (∀ l lo, leases s !! l = Some lo →
     l ∈ grantC s
     ∨ ∃ g, heap s !! lease_group lo = Some g ∧ nextLease g = Some l) →
  step e s = Some s' →
  ∀ l lo, leases s' !! l = Some lo →
    l ∈ grantC s'
    ∨ ∃ g, heap s' !! lease_group lo = Some g ∧ nextLease g = Some l.
Proof.
  intros Hlok Hfok Hla Hs.
  assert (∀ (f : group → group) gi l lo,
            (∀ x, heap s !! gi = Some x → nextLease x = Some l →
                  nextLease (f x) = Some l) →
            leases s !! l = Some lo →
            l ∈ grantC s
            ∨ ∃ g, alter f gi (heap s) !! lease_group lo = Some g
                   ∧ nextLease g = Some l) as Hframe.
  { intros f gi l lo Hf Hlo.
    destruct (Hla _ _ Hlo) as [?|(g & Hg & Hn)]; [by left|right].
    rewrite list_lookup_alter. case_decide; subst; rewrite Hg; simpl;
      eexists; split; try done. by apply Hf. }
  step_cases Hs; try done; simpl; intros l1 lo1 Hlo1.
  all: try (apply Hframe; [|done]; intros x Hx Hn; simplify_eq;
            grp_simpl; congruence).
  - (* start *)
    destruct (Hla _ _ Hlo1) as [?|(g & Hg & Hn)]; [by left|right].
    exists g. split; [by apply lookup_app_l_Some|done].
  - (* Release *)
    match goal with Hl : leases s !! _ = Some _ |- _ => rename Hl into Hlo end.
    destruct (lookup_release_Some _ _ _ _ _ Hlo Hlo1) as (lo2 & Hlo2 & <- & _).
    apply Hframe; [|done]. intros x Hx Hn. by grp_simpl.
  - (* allocation *)
    match goal with Hh : heap s !! _ = Some _ |- _ => rename Hh into Hg end.
    match goal with Hh : nextLease _ = None |- _ => rename Hh into Hnl end.
    apply lookup_snoc_Some in Hlo1 as [[_ Hlo1]|[-> <-]].
    + apply Hframe; [|done]. intros x Hx Hn. simplify_eq.
    + right. simpl. rewrite list_lookup_alter_eq, Hg. simpl. eauto.
  - (* Send *)
    destruct (Hframe (with_run (run_counts g) (Some n) true AtIncr) gi l1 lo1)
      as [?|?]; [|done| |by right].
    + intros x Hx Hn. by simplify_eq.
    + left. apply elem_of_app. by left.
  - (* Incr *)
    match goal with Hh : heap s !! _ = Some _ |- _ => rename Hh into Hg end.
    match goal with Hh : at_pc _ = AtIncr |- _ => rename Hh into Hpc end.
    destruct (Hla _ _ Hlo1) as [?|(g1 & Hg1 & Hn1)]; [by left|].
    destruct (decide (lease_group lo1 = gi)) as [Heq|Hne].
    + left. rewrite Heq in Hg1. assert (g1 = g) as -> by congruence.
      by apply (candidate_granted _ Hfok _ _ _ Hg Hn1).
    + right. exists g1. by rewrite list_lookup_alter_ne.
Qed.

Lemma live_ok_step e s s' :
  registry_ok s → leases_ok s → flow_ok s → live_ok s →
  step e s = Some s' → live_ok s'.
Proof.
  intros Hreg Hlok Hfok [Hrl Hex Hwp Hla] Hs. split.
  - by eapply registered_live_step.
  - by eapply exited_done_step.
  - by eapply wake_pending_step.
  - by eapply lease_accounted_step.
Qed.

Lemma live_ok_reachable parent s : reachable parent s → live_ok s.
Proof.
  intros Hreach.
  enough (registry_ok s ∧ heap_ok s ∧ leases_ok s ∧ flow_ok s ∧ live_ok s)
    by tauto.
  revert s Hreach. apply reachable_invariant.
  - destruct (invariants_reachable parent (NewPool parent))
      as (? & ? & ? & ? & ?); [by exists []|].
    split_and!; done.
  - intros e s s' (Hreg & Hhok & Hlok & Hfok & Hlive) Hs. split_and!.
    + by eapply registry_ok_step.
    + by eapply heap_ok_step.
    + by eapply leases_ok_step.
    + by eapply flow_ok_step.
    + by eapply live_ok_step.
Qed.

Lemma within_target_step e s s' :
  heap_ok s → leases_ok s → flow_ok s → within_target s →
  lowers e s = false → step e s = Some s' → within_target s'.
Proof.
  intros Hhok Hlok Hfok Hwt Hlow Hs.
  step_cases Hs; try done; intros gj g' Hg'; simpl in Hg'.
  - (* del *)
    apply lookup_alter_Some in Hg' as (g0 & Hg0 & [[-> ->]|[? ->]]);
      exact (Hwt _ _ Hg0).
  - (* SetTarget *)
    apply lookup_alter_Some in Hg' as (g0 & Hg0 & [[-> ->]|[? ->]]);
      [|exact (Hwt _ _ Hg0)].
    destruct (Hwt _ _ Hg0) as [Ho Hr].
    simpl in Hlow.
    repeat match goal with
           | Hh : groups s !! _ = Some _ |- _ => rewrite Hh in Hlow; clear Hh
           end.
    rewrite Hg0 in Hlow.
    apply andb_false_iff in Hlow as [Hl|Hl]; apply bool_decide_eq_false in Hl;
      [lia|].
    unfold outstanding in *. grp_simpl. lia.
  - (* start *)
    apply lookup_snoc_Some in Hg' as [[_ Hg']|[-> <-]];
      [exact (Hwt _ _ Hg')|].
    change (outstanding (pool_start k target s) (length (heap s)))
      with (outstanding s (length (heap s))).
    rewrite outstanding_fresh by done. simpl. lia.
  - (* Release *)
    match goal with
    | Hl : leases s !! ?l = Some ?lo, Hr : relOnce ?lo = false |- _ =>
        rename Hl into Hlo; rename Hr into Hrel
    end.
    apply lookup_alter_Some in Hg' as (g0 & Hg0 & Hcase).
    destruct (Hwt _ _ Hg0) as [Ho Hr].
    assert (outstanding
              (on_group (lease_group l0) group_decrActive
                 (mkPool (leaseIDs s) (groups s) (heap s)
                    (<[l := with_relOnce true l0]> (leases s))
                    (grantC s) (ctx s))) gj
            ≤ outstanding s gj) as Hle.
    { unfold outstanding. simpl.
      destruct (decide (gj = lease_group l0)) as [->|Hne].
      - rewrite (count_if_release (leases s) l l0 (grantC s));
          [lia|apply Hfok|done..].
      - by rewrite count_if_release_other. }
    destruct Hcase as [[-> ->]|[? ->]];
      unfold outstanding in *; simpl in *; grp_simpl; lia.
  - (* Load *)
    apply lookup_alter_Some in Hg' as (g0 & Hg0 & [[-> ->]|[? ->]]);
      [|exact (Hwt _ _ Hg0)].
    destruct (Hwt _ _ Hg0) as [Ho Hr]. simplify_eq. split; [exact Ho|].
    simpl. unfold group_loadCounts. lia.
  - (* Check, candidate kept *)
    apply lookup_alter_Some in Hg' as (g0 & Hg0 & [[-> ->]|[? ->]]);
      [|exact (Hwt _ _ Hg0)].
    destruct (Hwt _ _ Hg0) as [Ho Hr]. simplify_eq. by split.
  - (* Check, candidate allocated *)
    apply lookup_alter_Some in Hg' as (g0 & Hg0 & Hcase).
    destruct (Hwt _ _ Hg0) as [Ho Hr].
    unfold outstanding in *. simpl.
    rewrite count_if_alloc by apply Hlok.
    destruct Hcase as [[-> ->]|[? ->]]; simplify_eq; by split.
  - (* Check, idle *)
    apply lookup_alter_Some in Hg' as (g0 & Hg0 & [[-> ->]|[? ->]]);
      [|exact (Hwt _ _ Hg0)].
    destruct (Hwt _ _ Hg0) as [Ho Hr]. simplify_eq. by split.
  - (* Send *)
    match goal with Hh : heap s !! _ = Some _ |- _ => rename Hh into Hg end.
    match goal with Hh : nextLease _ = Some _ |- _ => rename Hh into Hnl end.
    match goal with Hh : grant _ = true |- _ => rename Hh into Hgr end.
    match goal with Hh : at_pc _ = AtSelect |- _ => rename Hh into Hpc end.
    destruct (nextLease_ok _ Hlok _ _ _ Hg Hnl) as (lo & Hlo & Hlg).
    assert (∀ gk, gk ≠ gi → is_outstanding (leases s) gk n = false) as Hout'.
    { intros gk Hne. unfold is_outstanding. rewrite Hlo.
      rewrite bool_decide_eq_false_2; [done|congruence]. }
    pose proof (Active_outstanding _ Hfok _ _ Hg) as Ha.
    pose proof (outstanding_bounded _ Hfok _ _ Hg) as Hb.
    rewrite pending_incr_not in Ha by congruence.
    rewrite wrap64_small in Ha by (unfold is_uint64; lia).
    destruct (offer_granting _ (Hhok _ _ Hg) Hpc Hgr) as [Hlt _].
    pose proof (Active_below_snapshot _ Hfok _ _ Hg (or_intror Hpc)) as Hle.
    apply lookup_alter_Some in Hg' as (g0 & Hg0 & Hcase).
    destruct (Hwt _ _ Hg0) as [Ho Hr].
    unfold outstanding in *. simpl. rewrite count_if_app. simpl.
    destruct Hcase as [[-> ->]|[? ->]].
    + simplify_eq. simpl. split; [|done].
      destruct (is_outstanding _ _ _); lia.
    + rewrite Hout' by done. split; [lia|done].
  - (* Incr *)
    apply lookup_alter_Some in Hg' as (g0 & Hg0 & [[-> ->]|[? ->]]);
      [|exact (Hwt _ _ Hg0)].
    destruct (Hwt _ _ Hg0) as [Ho Hr].
    unfold outstanding in *. simpl in *. by grp_simpl.
  - (* Wake *)
    apply lookup_alter_Some in Hg' as (g0 & Hg0 & [[-> ->]|[? ->]]);
      exact (Hwt _ _ Hg0).
  - (* Exit *)
    apply lookup_alter_Some in Hg' as (g0 & Hg0 & [[-> ->]|[? ->]]);
      [|exact (Hwt _ _ Hg0)].
    destruct (Hwt _ _ Hg0) as [Ho Hr]. simplify_eq. by split.
Qed.

Lemma within_target_exec tr : ∀ s s',
  heap_ok s → leases_ok s → flow_ok s → within_target s →
  never_lowers tr s = true → exec tr s = Some s' → within_target s'.
Proof.
  induction tr as [|e tr IH]; intros s s' Hhok Hlok Hfok Hwt Hnl Hex;
    simpl in *.
  - by simplify_eq.
  - destruct (step e s) as [s1|] eqn:He; simpl in Hex; [|done].
    apply andb_true_iff in Hnl as [Hlow Hnl].
    apply negb_true_iff in Hlow.
    eapply (IH s1); try done.
    + by eapply heap_ok_step.
    + by eapply leases_ok_step.
    + by eapply flow_ok_step.
    + by eapply within_target_step.
Qed.


(** ** What never changes *)

Lemma step_cancelled e s s' gi g :
  step e s = Some s' → heap s !! gi = Some g → cancelled g = true →
  ∃ g', heap s' !! gi = Some g' ∧ cancelled g' = true.
Proof.
  intros Hs Hg Hc. step_cases Hs; simpl; eauto.
  all: try (exists g; split; [by apply lookup_app_l_Some|done]).
  all: rewrite list_lookup_alter; case_decide; [|by eauto]; subst.
  all: rewrite Hg; simpl; eexists; split; [done|]; simplify_eq; by grp_simpl.
Qed.

Lemma exec_cancelled tr : ∀ s s' gi g,
  exec tr s = Some s' → heap s !! gi = Some g → cancelled g = true →
  ∃ g', heap s' !! gi = Some g' ∧ cancelled g' = true.
Proof.
  induction tr as [|e tr IH]; intros s s' gi g Hex Hg Hc; simpl in Hex.
  - simplify_eq. eauto.
  - destruct (step e s) as [s1|] eqn:He; simpl in Hex; [|done].
    destruct (step_cancelled _ _ _ _ _ He Hg Hc) as (g1 & Hg1 & Hc1).
    by eapply IH.
Qed.

Lemma step_key e s s' gi g :
  step e s = Some s' → heap s !! gi = Some g →
  key <$> heap s' !! gi = Some (key g).
Proof.
  intros Hs Hg. step_cases Hs; simpl; rewrite ?Hg; try done.
  all: try (by rewrite (lookup_app_l_Some _ _ _ _ Hg)).
  all: rewrite list_lookup_alter; case_decide; [|by rewrite Hg]; subst.
  all: rewrite Hg; simpl; by grp_simpl.
Qed.

Lemma step_lease e s s' l lo :
  step e s = Some s' → leases s !! l = Some lo →
  ∃ lo', leases s' !! l = Some lo' ∧ lease_group lo' = lease_group lo
         ∧ id lo' = id lo.
Proof.
  intros Hs Hlo. step_cases Hs; simpl; eauto.
  - match goal with |- context [<[?l1 := ?x]> _] =>
      destruct (decide (l1 = l)) as [->|Hne] end.
    + simplify_eq. eexists. split;
        [rewrite list_lookup_insert_eq; [done|by eapply lookup_lt_Some]|done].
    + exists lo. by rewrite list_lookup_insert_ne.
  - exists lo. split; [by apply lookup_app_l_Some|done].
Qed.

Lemma step_lease_methods e s s' l i k :
  leases_ok s → step e s = Some s' →
  lease_ID s l = Some i → lease_Key s l = Some k →
  lease_ID s' l = Some i ∧ lease_Key s' l = Some k.
Proof.
  intros Hlok Hs. unfold lease_ID, lease_Key.
  destruct (leases s !! l) as [lo|] eqn:Hlo; simpl; [|done].
  destruct (heap s !! lease_group lo) as [g|] eqn:Hg; simpl; [|done].
  intros [= <-] [= <-].
  destruct (step_lease _ _ _ _ _ Hs Hlo) as (lo' & -> & Hgrp & Hid). simpl.
  rewrite Hgrp, Hid. split; [done|].
  pose proof (step_key _ _ _ _ _ Hs Hg) as Hk.
  destruct (heap s' !! lease_group lo) as [g'|]; simpl in *; [|done].
  by injection Hk as ->.
Qed.

Lemma exec_lease_methods tr : ∀ s s' l i k,
  leases_ok s → exec tr s = Some s' →
  lease_ID s l = Some i → lease_Key s l = Some k →
  lease_ID s' l = Some i ∧ lease_Key s' l = Some k.
Proof.
  induction tr as [|e tr IH]; intros s s' l i k Hlok Hex Hi Hk; simpl in Hex.
  - by simplify_eq.
  - destruct (step e s) as [s1|] eqn:He; simpl in Hex; [|done].
    destruct (step_lease_methods _ _ _ _ _ _ Hlok He Hi Hk) as [Hi1 Hk1].
    eapply IH; [|done..]. by eapply leases_ok_step.
Qed.

(** ** Release after the group was deleted *)



(** ** Further properties of the pool *)

(** X1: in every reachable state a key of the registry leads to a live group
    object that carries this key and was not cancelled, and no two keys share
    a group. *)
Theorem registry_sound parent s k gi :
  reachable parent s → groups s !! k = Some gi →
  (∃ g, heap s !! gi = Some g ∧ key g = k ∧ cancelled g = false)
  ∧ ∀ k', groups s !! k' = Some gi → k' = k.
Proof.
  intros Hreach Hk.
  pose proof (registry_ok_reachable _ _ Hreach) as Hreg.
  pose proof (live_ok_reachable _ _ Hreach) as Hlive.
  destruct (Hreg _ _ Hk) as (g & Hg & Hkey). split.
  - exists g. split_and!; try done. by eapply (registered_live _ Hlive).
  - intros k' Hk'. by eapply registry_inj.
Qed.

(** X2: a Set on one key changes neither what the registry holds for another
    key nor the Counts that Get returns for that other key. *)
Theorem Set_other_key parent s k k' t :
  reachable parent s → k ≠ k' →
  groups (pool_Set k t s) !! k' = groups s !! k'
  ∧ fst (pool_Get k' (pool_Set k t s)) = fst (pool_Get k' s).
Proof.
  intros Hreach Hne.
  pose proof (registry_ok_reachable _ _ Hreach) as Hreg.
  assert (∀ gi (f : group → group), groups s !! k = Some gi →
            fst (pool_Get k' (on_group gi f s)) = fst (pool_Get k' s)) as Hfr.
  { intros gi f Hk. unfold pool_Get. simpl.
    destruct (groups s !! k') as [gi'|] eqn:Hk'; [|done].
    rewrite list_lookup_alter_ne; [by destruct (heap s !! gi')|].
    intros Heq. subst. destruct Hne.
    exact (registry_inj _ _ _ _ Hreg Hk Hk'). }
  unfold pool_Set, pool_del. case_decide.
  - destruct (groups s !! k) as [gi|] eqn:Hk; simpl; [|done].
    rewrite lookup_delete_ne by done. split; [done|].
    rewrite <- (Hfr gi group_cancel eq_refl). unfold pool_Get. simpl.
    rewrite lookup_delete_ne by done. by repeat case_match.
  - destruct (groups s !! k) as [gi|] eqn:Hk; simpl.
    + split; [done|]. by apply Hfr.
    + rewrite lookup_insert_ne by done. split; [done|].
      unfold pool_Get. simpl. rewrite lookup_insert_ne by done.
      destruct (groups s !! k') as [gi'|] eqn:Hk'; [|done].
      destruct (Hreg _ _ Hk') as (g' & Hg' & _).
      by rewrite (lookup_app_l_Some _ _ _ _ Hg'), Hg'.
Qed.


(** X4: the ID and the Key of a granted lease are defined, the Key is the key
    of the group that granted it, and both stay what they are in every later
    state, also after the lease was released and after its group was
    deleted. *)
Theorem lease_identity_stable parent s l tr s' :
  reachable parent s → l ∈ grantC s → exec tr s = Some s' →
  ∃ lo g,
    leases s !! l = Some lo ∧ heap s !! lease_group lo = Some g
    ∧ ID s l = Some (id lo) ∧ Key s l = Some (key g)
    ∧ ID s' l = Some (id lo) ∧ Key s' l = Some (key g).
Proof.
  intros Hreach Hl Hex.
  destruct (invariants_reachable _ _ Hreach) as (_ & _ & Hlok & _ & _).
  destruct (lookup_lt_is_Some_2 (leases s) l) as [lo Hlo];
    [by apply Hlok|].
  destruct (lookup_lt_is_Some_2 (heap s) (lease_group lo)) as [g Hg];
    [by eapply (lease_group_ok _ Hlok)|].
  assert (lease_ID s l = Some (id lo)) as Hi.
  { unfold lease_ID. by rewrite Hlo. }
  assert (lease_Key s l = Some (key g)) as Hk.
  { unfold lease_Key. rewrite Hlo. simpl. by rewrite Hg. }
  destruct (exec_lease_methods _ _ _ _ _ _ Hlok Hex Hi Hk) as [Hi' Hk'].
  exists lo, g. by split_and!.
Qed.

(** X5: no wake-up is lost.  When the goroutine of a group whose context is
    not done is at its select and the counts have changed since it loaded
    them, a wake-up is pending; so a group with Active < Target whose
    goroutine is at the select and whose context is not done is never idle:
    it offers a lease or it can take a wake-up and look again.  (Once the
    context is done the goroutine returns instead.) *)
Theorem never_stuck parent s gi g :
  reachable parent s → heap s !! gi = Some g → at_pc g = AtSelect →
  group_ctx_done s g = false →
  (run_counts g ≠ counts g → is_Some (step (RunWake gi) s))
  ∧ ((Active (counts g) < Target (counts g))%Z →
     is_Some (step (RunSend gi) s) ∨ is_Some (step (RunWake gi) s)).
Proof.
  intros Hreach Hg Hpc _.
  destruct (invariants_reachable _ _ Hreach) as (_ & Hhok & _ & _ & _).
  pose proof (live_ok_reachable _ _ Hreach) as Hlive.
  assert (run_counts g ≠ counts g → is_Some (step (RunWake gi) s)) as Hwake.
  { intros Hne. simpl. unfold run_wake. rewrite Hg. simpl.
    rewrite decide_True by done.
    pose proof (wake_pending _ Hlive _ _ Hg (or_intror Hpc) Hne) as Hn.
    destruct (notifyC g); [done|eauto]. }
  split; [done|]. intros Hlt.
  destruct (decide (run_counts g = counts g)) as [Heq|Hne]; [left|by auto].
  apply (run_send_enabled _ _ _ Hg).
  destruct (grant g) eqn:Hgr.
  - split_and!; try done. by apply (offer_granting _ (Hhok _ _ Hg)).
  - destruct (offer_idle _ (Hhok _ _ Hg) Hpc Hgr). by rewrite Heq.
Qed.

(** X6: a goroutine returns only after a cancellation.  In every reachable
    state a goroutine that has returned belongs to a group whose context is
    done; so while the pool is not stopped, the goroutine of every group of
    the registry is still in its loop. *)
Theorem registered_running parent s :
  reachable parent s →
  (∀ gi g, heap s !! gi = Some g → at_pc g = Exited →
     cancelled g = true ∨ ctx_done (ctx s) = true)
  ∧ (ctx_done (ctx s) = false →
     ∀ k gi, groups s !! k = Some gi →
     ∃ g, heap s !! gi = Some g ∧ at_pc g ≠ Exited).
Proof.
  intros Hreach.
  pose proof (registry_ok_reachable _ _ Hreach) as Hreg.
  pose proof (live_ok_reachable _ _ Hreach) as Hlive.
  assert (∀ gi g, heap s !! gi = Some g → at_pc g = Exited →
            cancelled g = true ∨ ctx_done (ctx s) = true) as Hex.
  { intros gi g Hg Hpc. apply orb_true_iff.
    apply (exited_done _ Hlive _ _ Hg Hpc). }
  split; [done|]. intros Hctx k gi Hk.
  destruct (Hreg _ _ Hk) as (g & Hg & _). exists g. split; [done|].
  intros Hpc. destruct (Hex _ _ Hg Hpc) as [Hc|Hc]; [|congruence].
  rewrite (registered_live _ Hlive _ _ _ Hk Hg) in Hc. done.
Qed.

(** X7: Set(k, 0) on a registered key removes the key and cancels the group
    of that key and no other group.  From then on the group stays cancelled,
    never comes back into the registry, and its goroutine can return whenever
    it is at its select. *)
Theorem delete_cancels_one parent s k gi :
  reachable parent s → groups s !! k = Some gi →
  groups (pool_Set k 0 s) !! k = None
  ∧ (∀ gj, gj ≠ gi → heap (pool_Set k 0 s) !! gj = heap s !! gj)
  ∧ ∀ tr s', exec tr (pool_Set k 0 s) = Some s' →
      ∃ g', heap s' !! gi = Some g' ∧ cancelled g' = true
            ∧ (at_pc g' = AtSelect → is_Some (step (RunExit gi) s'))
            ∧ ∀ k', groups s' !! k' ≠ Some gi.
Proof.
  intros Hreach Hk.
  pose proof (registry_ok_reachable _ _ Hreach) as Hreg.
  destruct (Hreg _ _ Hk) as (g & Hg & _).
  rewrite (pool_Set_delete _ _ _ Hk). split_and!.
  - simpl. apply lookup_delete_eq.
  - intros gj Hne. simpl. by apply list_lookup_alter_ne.
  - intros tr s' Hex.
    assert (reachable parent s') as Hreach'.
    { eapply reachable_exec; [|done].
      eapply (reachable_step _ (CallSet k 0%Z)); [done|].
      simpl. by rewrite (pool_Set_delete _ _ _ Hk). }
    destruct (exec_cancelled tr _ _ gi (group_cancel g) Hex)
      as (g' & Hg' & Hc'); [|done|].
    { simpl. by rewrite list_lookup_alter_eq, Hg. }
    exists g'. split_and!; try done.
    + intros Hpc. simpl. unfold run_exit. rewrite Hg'. simpl.
      rewrite decide_True by done. unfold group_ctx_done. rewrite Hc'.
      simpl. eauto.
    + intros k' Hk'.
      pose proof (registered_live _ (live_ok_reachable _ _ Hreach')
                    _ _ _ Hk' Hg'). congruence.
Qed.

(** X8: Set(k, 0) followed by Set(k, t) with t >= 1 starts a new group for
    the key, at a new address and with Active 0, whatever number of leases of
    the old group is still out; the old group keeps its counts, and a Release
    of a lease granted before does not change the Counts of the key. *)
Theorem recreated_group_fresh parent s k gi t :
  reachable parent s → groups s !! k = Some gi → (1 ≤ t)%Z →
  let s' := pool_Set k t (pool_Set k 0 s) in
  groups s' !! k = Some (length (heap s))
  ∧ fst (pool_Get k s') = mkCounts t 0
  ∧ counts_at s' gi = counts_at s gi
  ∧ ∀ l, l ∈ grantC s → fst (pool_Get k (lease_Release l s')) = mkCounts t 0.
Proof.
  intros Hreach Hk Ht s'.
  destruct (invariants_reachable _ _ Hreach) as (Hreg & _ & Hlok & _ & _).
  destruct (Hreg _ _ Hk) as (g & Hg & _).
  assert (gi < length (heap s)) as Hgi by (by eapply lookup_lt_Some).
  assert (s' = pool_start k t
                 (with_groups (delete k (groups s)) (on_group gi group_cancel s)))
    as Hs'.
  { unfold s'. rewrite (pool_Set_delete _ _ _ Hk).
    apply pool_Set_start; [done|]. simpl. apply lookup_delete_eq. }
  clearbody s'. subst s'.
  assert (∀ h : list group,
            (alter group_cancel gi (heap s) ++ h) !! length (heap s) = h !! 0)
    as Hnew.
  { intros h. rewrite lookup_app_r by (by rewrite length_alter).
    by rewrite length_alter, Nat.sub_diag. }
  split_and!.
  - simpl. rewrite length_alter. apply lookup_insert_eq.
  - unfold pool_Get. simpl. rewrite length_alter, lookup_insert_eq.
    by rewrite Hnew.
  - unfold counts_at. simpl.
    rewrite lookup_app_l by (by rewrite length_alter).
    rewrite list_lookup_alter_eq. by destruct (heap s !! gi).
  - intros l Hl. unfold pool_Get, lease_Release. simpl.
    destruct (lookup_lt_is_Some_2 (leases s) l) as [lo Hlo];
      [by apply Hlok|].
    rewrite Hlo. pose proof (lease_group_ok _ Hlok _ _ Hlo) as Hlg.
    destruct (relOnce lo); simpl; rewrite length_alter, lookup_insert_eq.
    + by rewrite Hnew.
    + rewrite list_lookup_alter_ne by lia. by rewrite Hnew.
Qed.

(** X9: as long as no Set gives a registered group a smaller target, no
    group has more leases out than its Target, and the Active count, read
    while the goroutine is not between a hand-over and its incrActive, is at
    most the Target. *)
Theorem leases_within_target parent tr s gi g :
  exec tr (NewPool parent) = Some s →
  never_lowers tr (NewPool parent) = true →
  heap s !! gi = Some g →
  (Z.of_nat (outstanding s gi) ≤ Target (counts g))%Z
  ∧ (at_pc g ≠ AtIncr → (Active (counts g) ≤ Target (counts g))%Z).
Proof.
  intros Hex Hnl Hg.
  destruct (invariants_reachable parent (NewPool parent))
    as (_ & Hhok0 & Hlok0 & Hfok0 & _); [by exists []|].
  assert (within_target s) as Hwt.
  { eapply (within_target_exec tr (NewPool parent)); done. }
  destruct (Hwt _ _ Hg) as [Ho _]. split; [done|].
  intros Hpc.
  destruct (invariants_reachable parent s) as (_ & _ & _ & Hfok & _);
    [by exists tr|].
  rewrite (Active_outstanding _ Hfok _ _ Hg).
  rewrite pending_incr_not, Z.sub_0_r by done.
  pose proof (outstanding_bounded _ Hfok _ _ Hg).
  rewrite wrap64_small by (unfold is_uint64; lia). done.
Qed.

(** ** What a goroutine can always do *)

Lemma load_step gi s g :
  heap s !! gi = Some g → at_pc g = AtLoad →
  ∃ s' g', step (RunLoad gi) s = Some s' ∧ heap s' !! gi = Some g'
    ∧ at_pc g' = AtCheck ∧ run_counts g' = counts g ∧ counts g' = counts g
    ∧ cancelled g' = cancelled g ∧ grantC s' = grantC s ∧ ctx s' = ctx s.
Proof.
  intros Hg Hpc. simpl. unfold run_load. rewrite Hg. simpl.
  rewrite decide_True by done. eexists _, _. split; [done|]. simpl.
  rewrite list_lookup_alter_eq, Hg. simpl. by split_and!.
Qed.

Lemma check_step gi s g :
  heap s !! gi = Some g → at_pc g = AtCheck →
  ∃ s' g', step (RunCheck gi) s = Some s' ∧ heap s' !! gi = Some g'
    ∧ at_pc g' = AtSelect ∧ run_counts g' = run_counts g
    ∧ counts g' = counts g ∧ notifyC g' = notifyC g
    ∧ cancelled g' = cancelled g ∧ grantC s' = grantC s ∧ ctx s' = ctx s
    ∧ ((Active (run_counts g) < Target (run_counts g))%Z →
       grant g' = true ∧ is_Some (nextLease g')).
Proof.
  intros Hg Hpc. simpl. unfold run_check. rewrite Hg. simpl.
  rewrite decide_True by done.
  case_decide; [destruct (nextLease g) eqn:Hn|]; simpl;
    eexists _, _; (split; [done|]); simpl;
    rewrite list_lookup_alter_eq, Hg; simpl; split_and!; eauto; done.
Qed.

Lemma send_step gi s g l :
  heap s !! gi = Some g → at_pc g = AtSelect → grant g = true →
  nextLease g = Some l →
  ∃ s', step (RunSend gi) s = Some s' ∧ grantC s' = grantC s ++ [l].
Proof.
  intros Hg Hpc Hgr Hn. simpl. unfold run_send. rewrite Hg. simpl.
  rewrite decide_True by done. rewrite Hgr, Hn. simpl. eauto.
Qed.

Lemma wake_step gi s g :
  heap s !! gi = Some g → at_pc g = AtSelect → notifyC g ≠ [] →
  ∃ s' g', step (RunWake gi) s = Some s' ∧ heap s' !! gi = Some g'
    ∧ at_pc g' = AtLoad ∧ counts g' = counts g
    ∧ cancelled g' = cancelled g ∧ grantC s' = grantC s ∧ ctx s' = ctx s.
Proof.
  intros Hg Hpc Hn. simpl. unfold run_wake. rewrite Hg. simpl.
  rewrite decide_True by done. destruct (notifyC g) as [|u rest]; [done|].
  eexists _, _. split; [done|]. simpl.
  rewrite list_lookup_alter_eq, Hg. simpl. by split_and!.
Qed.

Lemma incr_step gi s g :
  heap s !! gi = Some g → at_pc g = AtIncr →
  ∃ s' g', step (RunIncr gi) s = Some s' ∧ heap s' !! gi = Some g'
    ∧ at_pc g' = AtLoad ∧ cancelled g' = cancelled g ∧ ctx s' = ctx s.
Proof.
  intros Hg Hpc. simpl. unfold run_incr. rewrite Hg. simpl.
  rewrite decide_True by done. eexists _, _. split; [done|]. simpl.
  rewrite list_lookup_alter_eq, Hg. simpl. split_and!; try done.
  by grp_simpl.
Qed.

Lemma exit_step gi s g :
  heap s !! gi = Some g → at_pc g = AtSelect → group_ctx_done s g = true →
  ∃ s' g', step (RunExit gi) s = Some s' ∧ heap s' !! gi = Some g'
    ∧ at_pc g' = Exited.
Proof.
  intros Hg Hpc Hd. simpl. unfold run_exit. rewrite Hg. simpl.
  rewrite decide_True by done. rewrite Hd.
  eexists _, _. split; [done|]. simpl.
  by rewrite list_lookup_alter_eq, Hg.
Qed.

Lemma exec_step e tr s s1 :
  step e s = Some s1 → exec (e :: tr) s = exec tr s1.
Proof. intros Hs. cbn [exec]. by rewrite Hs. Qed.

Lemma grant_from_load gi s g :
  heap s !! gi = Some g → at_pc g = AtLoad →
  (Active (counts g) < Target (counts g))%Z →
  ∃ s' l, exec [RunLoad gi; RunCheck gi; RunSend gi] s = Some s'
          ∧ grantC s' = grantC s ++ [l].
Proof.
  intros Hg Hpc Hlt.
  destruct (load_step _ _ _ Hg Hpc)
    as (s1 & g1 & Hs1 & Hg1 & Hpc1 & Hrc1 & Hc1 & _ & Hgc1 & _).
  destruct (check_step _ _ _ Hg1 Hpc1)
    as (s2 & g2 & Hs2 & Hg2 & Hpc2 & Hrc2 & _ & _ & _ & Hgc2 & _ & Hoffer).
  destruct Hoffer as [Hgr [l Hl]]; [by rewrite Hrc1|].
  destruct (send_step _ _ _ _ Hg2 Hpc2 Hgr Hl) as (s3 & Hs3 & Hgc3).
  exists s3, l.
  rewrite (exec_step _ _ _ _ Hs1), (exec_step _ _ _ _ Hs2),
          (exec_step _ _ _ _ Hs3).
  split; [done|]. by rewrite Hgc3, Hgc2, Hgc1.
Qed.

Lemma grant_from_select parent gi s g :
  reachable parent s → heap s !! gi = Some g → at_pc g = AtSelect →
  (Active (counts g) < Target (counts g))%Z →
  ∃ tr s' l, length tr ≤ 4 ∧ Forall (λ e, e ∈ [RunWake gi; RunLoad gi;
                                               RunCheck gi; RunSend gi]) tr
             ∧ exec tr s = Some s' ∧ grantC s' = grantC s ++ [l].
Proof.
  intros Hreach Hg Hpc Hlt.
  destruct (invariants_reachable _ _ Hreach) as (_ & Hhok & _ & _ & _).
  pose proof (live_ok_reachable _ _ Hreach) as Hlive.
  destruct (decide (run_counts g = counts g)) as [Heq|Hne].
  - destruct (grant g) eqn:Hgr.
    + destruct (offer_granting _ (Hhok _ _ Hg) Hpc Hgr) as [_ [l Hl]].
      destruct (send_step _ _ _ _ Hg Hpc Hgr Hl) as (s1 & Hs1 & Hgc1).
      exists [RunSend gi], s1, l. split_and!; try done.
      * simpl. lia.
      * repeat constructor; set_solver.
      * by rewrite (exec_step _ _ _ _ Hs1).
    + destruct (offer_idle _ (Hhok _ _ Hg) Hpc Hgr). by rewrite Heq.
  - pose proof (wake_pending _ Hlive _ _ Hg (or_intror Hpc) Hne) as Hn.
    destruct (wake_step _ _ _ Hg Hpc Hn)
      as (s1 & g1 & Hs1 & Hg1 & Hpc1 & Hc1 & _ & Hgc1 & _).
    destruct (grant_from_load gi s1 g1 Hg1 Hpc1) as (s2 & l & Hex & Hgc2);
      [by rewrite Hc1|].
    exists [RunWake gi; RunLoad gi; RunCheck gi; RunSend gi], s2, l.
    split_and!; try done.
    + repeat constructor; set_solver.
    + by rewrite (exec_step _ _ _ _ Hs1).
    + by rewrite Hgc2, Hgc1.
Qed.

(** X10: a group that is below its target can always grant.  In every
    reachable state, if Active < Target for a group whose context is not
    done (the group was not deleted and the pool was not stopped) and whose
    goroutine has not returned and is not between a hand-over and its
    incrActive, then at most five actions of that goroutine alone (wake-up,
    load, check, send) hand over one more lease. *)
Theorem grant_possible parent s gi g :
  reachable parent s → heap s !! gi = Some g →
  group_ctx_done s g = false →
  at_pc g ≠ AtIncr → at_pc g ≠ Exited →
  (Active (counts g) < Target (counts g))%Z →
  ∃ tr s' l,
    length tr ≤ 5
    ∧ Forall (λ e, e ∈ [RunWake gi; RunLoad gi; RunCheck gi; RunSend gi]) tr
    ∧ exec tr s = Some s' ∧ grantC s' = grantC s ++ [l].
Proof.
  intros Hreach Hg _ Hni Hne Hlt. destruct (at_pc g) eqn:Hpc; try done.
  - destruct (grant_from_load gi s g Hg Hpc Hlt) as (s' & l & Hex & Hgc).
    exists [RunLoad gi; RunCheck gi; RunSend gi], s', l.
    split_and!; try done; [simpl; lia|repeat constructor; set_solver].
  - destruct (check_step _ _ _ Hg Hpc)
      as (s1 & g1 & Hs1 & Hg1 & Hpc1 & _ & Hc1 & _ & _ & Hgc1 & _).
    destruct (grant_from_select parent gi s1 g1)
      as (tr & s2 & l & Hlen & Hall & Hex & Hgc2); try done.
    { by eapply reachable_step. }
    { by rewrite Hc1. }
    exists (RunCheck gi :: tr), s2, l. split_and!.
    + simpl. lia.
    + constructor; [set_solver|done].
    + by rewrite (exec_step _ _ _ _ Hs1).
    + by rewrite Hgc2, Hgc1.
  - destruct (grant_from_select parent gi s g)
      as (tr & s2 & l & Hlen & Hall & Hex & Hgc2); try done.
    exists tr, s2, l. split_and!; try done. lia.
Qed.

(** X11: a cancelled goroutine can always return.  In every state in which
    the context of a group is done (its key was deleted or the pool was
    stopped), at most four actions of the goroutine of the group alone bring
    it to its return. *)
Theorem exit_possible s gi g :
  heap s !! gi = Some g → group_ctx_done s g = true →
  ∃ tr s' g',
    length tr ≤ 4
    ∧ Forall (λ e, e ∈ [RunIncr gi; RunLoad gi; RunCheck gi; RunExit gi]) tr
    ∧ exec tr s = Some s' ∧ heap s' !! gi = Some g' ∧ at_pc g' = Exited.
Proof.
  intros Hg Hd.
  assert (∀ s g, heap s !! gi = Some g → group_ctx_done s g = true →
            at_pc g = AtSelect →
            ∃ s' g', exec [RunExit gi] s = Some s'
                     ∧ heap s' !! gi = Some g' ∧ at_pc g' = Exited) as Hsel.
  { intros s0 g0 Hg0 Hd0 Hpc0.
    destruct (exit_step _ _ _ Hg0 Hpc0 Hd0) as (s1 & g1 & Hs1 & Hg1 & Hpc1).
    exists s1, g1. by rewrite (exec_step _ _ _ _ Hs1). }
  assert (∀ s g, heap s !! gi = Some g → group_ctx_done s g = true →
            at_pc g = AtCheck →
            ∃ s' g', exec [RunCheck gi; RunExit gi] s = Some s'
                     ∧ heap s' !! gi = Some g' ∧ at_pc g' = Exited) as Hchk.
  { intros s0 g0 Hg0 Hd0 Hpc0.
    destruct (check_step _ _ _ Hg0 Hpc0)
      as (s1 & g1 & Hs1 & Hg1 & Hpc1 & _ & _ & _ & Hc1 & _ & Hx1 & _).
    destruct (Hsel s1 g1 Hg1) as (s2 & g2 & Hex & Hg2 & Hpc2); [|done|].
    { unfold group_ctx_done in *. by rewrite Hc1, Hx1. }
    exists s2, g2. split; [|done]. by rewrite (exec_step _ _ _ _ Hs1). }
  assert (∀ s g, heap s !! gi = Some g → group_ctx_done s g = true →
            at_pc g = AtLoad →
            ∃ s' g', exec [RunLoad gi; RunCheck gi; RunExit gi] s = Some s'
                     ∧ heap s' !! gi = Some g' ∧ at_pc g' = Exited) as Hld.
  { intros s0 g0 Hg0 Hd0 Hpc0.
    destruct (load_step _ _ _ Hg0 Hpc0)
      as (s1 & g1 & Hs1 & Hg1 & Hpc1 & _ & _ & Hc1 & _ & Hx1).
    destruct (Hchk s1 g1 Hg1) as (s2 & g2 & Hex & Hg2 & Hpc2); [|done|].
    { unfold group_ctx_done in *. by rewrite Hc1, Hx1. }
    exists s2, g2. split; [|done]. by rewrite (exec_step _ _ _ _ Hs1). }
  destruct (at_pc g) eqn:Hpc.
  - destruct (Hld s g Hg Hd Hpc) as (s' & g' & Hex & Hg' & Hpc').
    exists [RunLoad gi; RunCheck gi; RunExit gi], s', g'.
    split_and!; try done; [simpl; lia|repeat constructor; set_solver].
  - destruct (Hchk s g Hg Hd Hpc) as (s' & g' & Hex & Hg' & Hpc').
    exists [RunCheck gi; RunExit gi], s', g'.
    split_and!; try done; [simpl; lia|repeat constructor; set_solver].
  - destruct (Hsel s g Hg Hd Hpc) as (s' & g' & Hex & Hg' & Hpc').
    exists [RunExit gi], s', g'.
    split_and!; try done; [simpl; lia|repeat constructor; set_solver].
  - destruct (incr_step _ _ _ Hg Hpc) as (s1 & g1 & Hs1 & Hg1 & Hpc1 & Hc1 & Hx1).
    destruct (Hld s1 g1 Hg1) as (s2 & g2 & Hex & Hg2 & Hpc2); [|done|].
    { unfold group_ctx_done in *. by rewrite Hc1, Hx1. }
    exists [RunIncr gi; RunLoad gi; RunCheck gi; RunExit gi], s2, g2.
    split_and!; try done; [repeat constructor; set_solver|].
    by rewrite (exec_step _ _ _ _ Hs1).
  - exists [], s, g. split_and!; try done. simpl. lia.
Qed.

Lemma Target_positive_reachable parent s gi g :
  reachable parent s → heap s !! gi = Some g → (1 ≤ Target (counts g))%Z.
Proof.
  intros Hreach. revert gi g. revert s Hreach.
  apply (reachable_invariant
           (λ s, ∀ gi g, heap s !! gi = Some g → (1 ≤ Target (counts g))%Z)).
  - by intros gi g Hg.
  - intros e s s' IH Hs. step_cases Hs; try done; intros gj g' Hg'; simpl in Hg'.
    all: try (apply lookup_alter_Some in Hg' as (g0 & Hg0 & [[-> ->]|[? ->]]);
              [|by eauto]; pose proof (IH _ _ Hg0); grp_simpl;
              simplify_eq; simpl; first [done|lia]).
    apply lookup_snoc_Some in Hg' as [[_ Hg']|[_ <-]]; [by eauto|].
    simpl. lia.
Qed.

(** X12: the Target that Get reports is 0 exactly for the keys that have no
    group: every group of the registry has a Target of at least 1. *)
Theorem Get_Target_zero parent s k :
  reachable parent s →
  (Target (fst (pool_Get k s)) = 0%Z ↔ groups s !! k = None)
  ∧ (groups s !! k = None → fst (pool_Get k s) = Counts_zero).
Proof.
  intros Hreach.
  pose proof (registry_ok_reachable _ _ Hreach) as Hreg.
  unfold pool_Get. destruct (groups s !! k) as [gi|] eqn:Hk; [|done].
  destruct (Hreg _ _ Hk) as (g & Hg & _). rewrite Hg. simpl.
  pose proof (Target_positive_reachable _ _ _ _ Hreach Hg).
  unfold group_loadCounts. split; [|done]. split; [lia|done].
Qed.

End facts.

End workpool.

(** * retry *)

Lemma wrap_int64_small z : is_int64 z → wrap_int64 z = z.
Proof.
  unfold is_int64, wrap_int64, uint64_mod. intros Hz.
  rewrite Z.mod_small by lia. lia.
Qed.

Lemma wrap_int64_range z : is_int64 (wrap_int64 z).
Proof.
  unfold is_int64, wrap_int64, uint64_mod.
  pose proof (Z.mod_pos_bound (z + 2 ^ 63) (2 ^ 64)). lia.
Qed.

Lemma NewJitter_above d draw :
  is_int64 d → (1 ≤ d)%Z → (0 ≤ draw < d)%Z →
  (d ÷ 2 ≤ NewJitter d draw < d)%Z.
Proof.
  intros Hd Hge Hdraw. unfold NewJitter. rewrite decide_False by lia.
  rewrite !Z.quot_div_nonneg by lia.
  assert (0 ≤ d `div` 2 ∧ 0 ≤ draw `div` 2 ∧ 2 * (d `div` 2) ≤ d
          ∧ 2 * (draw `div` 2) ≤ draw)%Z as (? & ? & ? & ?).
  { pose proof (Z.mul_div_le d 2). pose proof (Z.mul_div_le draw 2).
    pose proof (Z.div_pos d 2). pose proof (Z.div_pos draw 2). lia. }
  unfold is_int64 in Hd.
  rewrite wrap_int64_small by (unfold is_int64; lia). lia.
Qed.

(** X13: for a duration of at least 1 the default jitter returns a duration
    from d/2 up to but not including d, whatever the generator draws; for a
    duration below 1 it returns 0 without drawing. *)
Theorem NewJitter_range d draw :
  is_int64 d →
  ((d < 1)%Z → NewJitter d draw = 0%Z)
  ∧ ((1 ≤ d)%Z → (0 ≤ draw < d)%Z →
     (d ÷ 2 ≤ NewJitter d draw < d)%Z).
Proof.
  intros Hd. split.
  - intros Hlt. unfold NewJitter. by rewrite decide_True.
  - by apply NewJitter_above.
Qed.

(** X14: with Max at least 0, and with no jitter or the default jitter,
    Duration is never negative and never above Max, at every attempt, also
    after the attempt counter or the product with Step has wrapped around;
    and it is never above the delay before the jitter. *)
Theorem Linear_Duration_bounds r draw :
  (0 ≤ Max (config r))%Z →
  jitter r = None ∨ jitter r = Some NewJitter →
  ((1 ≤ Linear_base r)%Z → (0 ≤ draw < Linear_base r)%Z) →
  (0 ≤ Linear_Duration r draw ≤ Max (config r))%Z
  ∧ (Linear_Duration r draw ≤ Z.max 0 (Linear_base r))%Z.
Proof.
  intros Hmax Hj Hdraw. unfold Linear_Duration.
  case_decide as Ha; [lia|].
  pose proof (wrap_int64_range
                (First (config r) + wrap_int64 (attempt r * Step (config r))))
    as Hbase.
  fold (Linear_base r) in Hbase.
  destruct Hj as [-> | ->].
  - case_decide; lia.
  - pose proof (NewJitter_above (Linear_base r) draw Hbase
                  ltac:(lia) ltac:(apply Hdraw; lia)) as Hrange.
    assert (0 ≤ Linear_base r ÷ 2)%Z by (apply Z.quot_pos; lia).
    case_decide; lia.
Qed.

(** X15: without jitter, after n calls of Inc on a new Linear the delay is
    First + n * Step, cut off at Max, and 0 when that sum is below 1, as long
    as the sum and the product stay within int64. *)
Theorem Linear_progression cfg (n : nat) draw :
  Jitter cfg = None →
  is_int64 (Z.of_nat n) →
  is_int64 (Z.of_nat n * Step cfg) →
  is_int64 (First cfg + Z.of_nat n * Step cfg) →
  Linear_Duration (Nat.iter n Linear_Inc (newLinear cfg)) draw
  = if decide (First cfg + Z.of_nat n * Step cfg < 1)%Z then 0%Z
    else Z.min (First cfg + Z.of_nat n * Step cfg) (Max cfg).
Proof.
  intros Hj Hn Hmul Hsum.
  assert (∀ m : nat, m ≤ n →
            Nat.iter m Linear_Inc (newLinear cfg)
            = mkLinear cfg (Z.of_nat m) None) as Hiter.
  { induction m as [|m IH]; intros Hm.
    - unfold newLinear. by rewrite Hj.
    - simpl. rewrite IH by lia. unfold Linear_Inc. simpl. f_equal.
      rewrite wrap_int64_small; [lia|]. unfold is_int64 in *. lia. }
  rewrite Hiter by done. unfold Linear_Duration, Linear_base. simpl.
  rewrite (wrap_int64_small (Z.of_nat n * Step cfg)) by done.
  rewrite wrap_int64_small by done.
  repeat case_decide; lia.
Qed.

(** X16: NewLinear fails exactly when Step or Max is 0, and Step is looked
    at first.  A negative Max passes, and then Duration is never above 0 and
    After returns the closed channel, at every attempt and with any jitter. *)
Theorem NewLinear_checks cfg :
  ((∃ err, NewLinear cfg = inl err) ↔ Step cfg = 0%Z ∨ Max cfg = 0%Z)
  ∧ (Step cfg = 0%Z →
     NewLinear cfg = inl (BadParameter "missing parameter Step"))
  ∧ (Step cfg ≠ 0%Z → Max cfg = 0%Z →
     NewLinear cfg = inl (BadParameter "missing parameter Max"))
  ∧ (Step cfg ≠ 0%Z → (Max cfg < 0)%Z →
     NewLinear cfg = inr (newLinear cfg)
     ∧ ∀ r draw, config r = cfg →
         (Linear_Duration r draw ≤ 0)%Z ∧ Linear_After r draw = closedChan).
Proof.
  unfold NewLinear, CheckAndSetDefaults. split_and!.
  - repeat case_decide; simpl; split; eauto; try (intros [|]; done).
    by intros [err ?].
  - intros ->. by rewrite decide_True.
  - intros Hs ->. rewrite decide_False by done. by rewrite decide_True.
  - intros Hs Hm. rewrite !decide_False by lia. split; [done|].
    intros r draw <-.
    assert (Linear_Duration r draw ≤ 0)%Z as Hd.
    { unfold Linear_Duration. case_decide as Ha; [lia|].
      case_decide; lia. }
    split; [done|]. unfold Linear_After. by rewrite decide_True by lia.
Qed.

(** X17: Reset and Clone both start over.  After any number of calls of Inc
    on a Linear made by newLinear, also so many that the attempt counter has
    wrapped around, Reset gives back the Linear that newLinear made, Clone
    gives an equal one, and the delay is again the one of the first attempt. *)
Theorem Reset_Clone_restart cfg (n : nat) draw :
  let r := Nat.iter n Linear_Inc (newLinear cfg) in
  Linear_Reset r = newLinear cfg
  ∧ Linear_Clone r = newLinear cfg
  ∧ Linear_Duration (Linear_Reset r) draw = Linear_Duration (newLinear cfg) draw
  ∧ Linear_After (Linear_Clone r) draw = Linear_After (newLinear cfg) draw.
Proof.
  intros r.
  assert (config r = cfg ∧ jitter r = Jitter cfg) as [Hc Hj].
  { subst r. induction n as [|n IH]; [done|]. simpl. by destruct IH. }
  assert (Linear_Reset r = newLinear cfg) as HR.
  { unfold Linear_Reset, newLinear. by rewrite Hc, Hj. }
  assert (Linear_Clone r = newLinear cfg) as HC.
  { unfold Linear_Clone. by rewrite Hc. }
  by rewrite HR, HC.
Qed.

(** * Concrete executions

    The statements above at pools with string keys: one instance of each, and
    the executions in which a property fails when it is read more strongly
    than the code allows. *)

Lemma Set_then_Get_witness :
  Target (fst (pool_Get "a"
    (state_after [CallSet "a" 3; RunLoad 0; CallSet "b" 7; CallSet "a" 5])))
  = 5%Z.
Proof.
  pose proof (Set_then_Get Background
    [CallSet "a" 3%Z; RunLoad 0; CallSet "b" 7%Z; CallSet "a" 5%Z]
    _ "a" eq_refl) as [Hget _].
  exact Hget.
Defined.

Lemma Get_frame_witness :
  fst (pool_Get "a" (NewPool Background)) = Counts_zero.
Proof.
  destruct (Get_frame "a" (NewPool Background)) as (_ & _ & Hzero).
  apply Hzero. reflexivity.
Defined.

Lemma state_after_reachable (tr : list (@event string)) :
  is_Some (exec tr (NewPool Background)) →
  reachable Background (state_after tr).
Proof.
  intros [s Hs]. exists tr. unfold state_after. by rewrite Hs.
Qed.

Lemma Release_once_witness :
  is_Some (step (CallRelease 0) (state_after (grant_one "a" 1))).
Proof.
  assert (reachable Background (state_after (grant_one "a" 1%Z))) as Hreach.
  { apply state_after_reachable. vm_compute. eauto. }
  assert (0 ∈ grantC (state_after (grant_one "a" 1%Z))) as Hin.
  { vm_compute. apply list_elem_of_here. }
  destruct (Release_once Background _ 0 Hreach Hin)
    as (lo & g & _ & _ & Hrest).
  destruct (relOnce lo).
  - rewrite Hrest. eauto.
  - destruct Hrest as (s1 & -> & _). eauto.
Defined.

(** C3: the code at the execution in which the claim fails.  Set("a", 1)
    starts the group; its goroutine loads the counts, allocates lease 0 and
    hands it over; the receiver calls Release before the goroutine has run
    incrActive.  Active is 0 at that moment and the first Release makes it
    2^64 - 1 instead of taking one off a count of 1; a second Release changes
    nothing; the incrActive that follows brings the count to 0. *)
Theorem Release_before_incrActive :
  exec [CallSet "a" 1%Z; RunLoad 0; RunCheck 0; RunSend 0] (NewPool Background)
  = Some (state_after [CallSet "a" 1%Z; RunLoad 0; RunCheck 0; RunSend 0])
  ∧ grantC (state_after [CallSet "a" 1%Z; RunLoad 0; RunCheck 0; RunSend 0])
    = [0]
  ∧ fst (pool_Get "a"
           (state_after [CallSet "a" 1%Z; RunLoad 0; RunCheck 0; RunSend 0]))
    = mkCounts 1 0
  ∧ step (CallRelease 0)
         (state_after [CallSet "a" 1%Z; RunLoad 0; RunCheck 0; RunSend 0])
    = Some (state_after (early_release "a"))
  ∧ fst (pool_Get "a" (state_after (early_release "a")))
    = mkCounts 1 18446744073709551615
  ∧ step (CallRelease 0) (state_after (early_release "a"))
    = Some (state_after (early_release "a"))
  ∧ step (RunIncr 0) (state_after (early_release "a"))
    = Some (state_after (early_release "a" ++ [RunIncr 0]))
  ∧ fst (pool_Get "a" (state_after (early_release "a" ++ [RunIncr 0])))
    = mkCounts 1 0.
Proof. split_and!; vm_compute; eauto. Qed.


Lemma notify_coalesces_witness :
  is_Some (step (CallSet "a" 0) (state_after (grant_one "a" 1))).
Proof.
  assert (reachable Background (state_after (grant_one "a" 1%Z))) as Hreach.
  { apply state_after_reachable. vm_compute. eauto. }
  destruct (notify_coalesces Background _ Hreach) as (_ & _ & Hset & _).
  apply Hset. unfold is_uint64, uint64_mod. lia.
Defined.

Lemma grant_follows_snapshot_witness :
  is_Some (step (RunSend 0)
             (state_after [CallSet "a" 1; RunLoad 0; RunCheck 0])).
Proof.
  assert (reachable Background
            (state_after [CallSet "a" 1%Z; RunLoad 0; RunCheck 0])) as Hreach.
  { apply state_after_reachable. vm_compute. eauto. }
  destruct (heap (state_after [CallSet "a" 1%Z; RunLoad 0; RunCheck 0]) !! 0)
    as [g|] eqn:Hg; [|by vm_compute in Hg].
  destruct (grant_follows_snapshot Background _ 0 g Hreach Hg)
    as (_ & _ & _ & Hsend & _).
  apply Hsend. vm_compute in Hg. injection Hg as <-. by vm_compute.
Defined.

(** C2 fails as stated.  After [lowered_target] the counts are Target 1 and
    Active 1, and the lease offered before the target was lowered can still be
    taken, which makes Active 2 with Target 1.  After [early_release] the
    count was decremented at 0: it is 2^64 - 1. *)
Lemma grant_at_target :
  exec (lowered_target "a") (NewPool Background)
  = Some (state_after (lowered_target "a"))
  ∧ fst (pool_Get "a" (state_after (lowered_target "a"))) = mkCounts 1 1
  ∧ is_Some (step (RunSend 0) (state_after (lowered_target "a")))
  ∧ exec (lowered_target "a" ++ [RunSend 0; RunIncr 0]) (NewPool Background)
    = Some (state_after (lowered_target "a" ++ [RunSend 0; RunIncr 0]))
  ∧ fst (pool_Get "a" (state_after (lowered_target "a" ++ [RunSend 0; RunIncr 0])))
    = mkCounts 1 2
  ∧ exec (early_release "a") (NewPool Background)
    = Some (state_after (early_release "a"))
  ∧ fst (pool_Get "a" (state_after (early_release "a")))
    = mkCounts 1 18446744073709551615.
Proof. split_and!; vm_compute; eauto. Qed.

Lemma Stop_is_final_witness :
  ctx_done (ctx (state_after (grant_one "a" 1 ++ [CallStop; RunLoad 0]))) = true.
Proof.
  assert (reachable Background (state_after (grant_one "a" 1%Z))) as Hreach.
  { apply state_after_reachable. vm_compute. eauto. }
  destruct (Stop_is_final Background (state_after (grant_one "a" 1%Z))
              [RunLoad 0]
              (state_after (grant_one "a" 1%Z ++ [CallStop; RunLoad 0]))
              Hreach) as (Hdone & _).
  - vm_compute. reflexivity.
  - exact Hdone.
Defined.

(** C4 fails as stated.  Stop is called while the goroutine of "a" offers a
    lease; nothing was granted so far, and the offer can still be taken. *)
Lemma grant_after_Stop :
  exec (stop_with_offer "a") (NewPool Background)
  = Some (state_after (stop_with_offer "a"))
  ∧ ctx_done (ctx (state_after (stop_with_offer "a"))) = true
  ∧ grantC (state_after (stop_with_offer "a")) = []
  ∧ grantC <$> step (RunSend 0) (state_after (stop_with_offer "a"))
    = Some [0].
Proof. split_and!; vm_compute; eauto. Qed.

Lemma candidate_ids_witness :
  leaseIDs (state_after (deleted_with_offer "a"))
  = wrap64 (Z.of_nat (length (leases (state_after (deleted_with_offer "a"))))).
Proof.
  assert (reachable Background (state_after (deleted_with_offer "a")))
    as Hreach.
  { apply state_after_reachable. vm_compute. eauto. }
  destruct (heap (state_after (deleted_with_offer "a")) !! 0)
    as [g|] eqn:Hg; [|by vm_compute in Hg].
  destruct (candidate_ids Background _ 0 g Hreach Hg)
    as (_ & _ & Hcounter & _).
  exact Hcounter.
Defined.

(** C5 fails as stated.  In [two_groups] the lease with id 2 is granted
    before the lease with id 1, so the ids do not follow the grants.  In
    [deleted_with_offer] the id 1 was taken from the counter for a candidate
    that is never granted: its goroutine has returned. *)
Lemma ids_not_in_grant_order :
  exec (two_groups "a" "b") (NewPool Background)
  = Some (state_after (two_groups "a" "b"))
  ∧ grantC (state_after (two_groups "a" "b")) = [1; 0]
  ∧ lease_ID (state_after (two_groups "a" "b")) 1 = Some 2%Z
  ∧ lease_ID (state_after (two_groups "a" "b")) 0 = Some 1%Z
  ∧ exec (deleted_with_offer "a") (NewPool Background)
    = Some (state_after (deleted_with_offer "a"))
  ∧ leaseIDs (state_after (deleted_with_offer "a")) = 1%Z
  ∧ grantC (state_after (deleted_with_offer "a")) = []
  ∧ at_pc <$> heap (state_after (deleted_with_offer "a")) !! 0 = Some Exited.
Proof. split_and!; vm_compute; eauto. Qed.

Lemma granted_id_positive_witness :
  ID (state_after (grant_one "a" 1)) 0 ≠ ID (state_after (grant_one "a" 1)) (NOPLease "b").
Proof.
  assert (reachable Background (state_after (grant_one "a" 1%Z))) as Hreach.
  { apply state_after_reachable. vm_compute. eauto. }
  assert (0 ∈ grantC (state_after (grant_one "a" 1%Z))) as Hin.
  { vm_compute. apply list_elem_of_here. }
  destruct (granted_id_positive Background _ 0 "b" Hreach Hin)
    as (_ & i & _ & _ & _ & _ & Hne).
  - unfold uint64_mod. simpl. lia.
  - exact Hne.
Defined.

(** C10 fails as stated.  The counter is a uint64: after 2^64 - 1
    allocations the next candidate gets id 0, the id of a NOPLease, and it
    can be granted. *)
Lemma granted_id_zero :
  ∃ (s : @pool string _ _) l,
    reachable Background s ∧ l ∈ grantC s
    ∧ ID s l = Some 0%Z ∧ ID s l = ID s (NOPLease "a").
Proof.
  destruct (wrapped_id_reachable Background "a") as (s & l & Hreach & Hl & Hid).
  exists s, l. split_and!; done.
Qed.

(** ** Instances of the further properties *)

Lemma registry_sound_witness :
  ∃ g, heap (state_after (grant_one "a" 1)) !! 0 = Some g
       ∧ key g = "a" ∧ cancelled g = false.
Proof.
  assert (reachable Background (state_after (grant_one "a" 1%Z))) as Hreach.
  { apply state_after_reachable. vm_compute. eauto. }
  destruct (registry_sound Background _ "a" 0 Hreach) as [Hlive _].
  - vm_compute. reflexivity.
  - exact Hlive.
Defined.

Lemma Set_other_key_witness :
  fst (pool_Get "b" (pool_Set "a" 5 (state_after (grant_one "a" 1))))
  = fst (pool_Get "b" (state_after (grant_one "a" 1))).
Proof.
  assert (reachable Background (state_after (grant_one "a" 1%Z))) as Hreach.
  { apply state_after_reachable. vm_compute. eauto. }
  destruct (Set_other_key Background _ "a" "b" 5%Z Hreach) as [_ Hget].
  - discriminate.
  - exact Hget.
Defined.


Lemma lease_identity_stable_witness :
  ∃ i k,
    ID (state_after (grant_one "a" 1)) 0 = Some i
    ∧ ID (state_after (grant_then_delete "a" 1 ++ [CallRelease 0])) 0 = Some i
    ∧ Key (state_after (grant_one "a" 1)) 0 = Some k
    ∧ Key (state_after (grant_then_delete "a" 1 ++ [CallRelease 0])) 0 = Some k.
Proof.
  assert (reachable Background (state_after (grant_one "a" 1%Z))) as Hreach.
  { apply state_after_reachable. vm_compute. eauto. }
  assert (0 ∈ grantC (state_after (grant_one "a" 1%Z))) as Hin.
  { vm_compute. apply list_elem_of_here. }
  destruct (lease_identity_stable Background _ 0
              [CallSet "a" 0%Z; CallRelease 0]
              (state_after (grant_then_delete "a" 1%Z ++ [CallRelease 0]))
              Hreach Hin)
    as (lo & g & _ & _ & Hi & Hk & Hi' & Hk').
  - vm_compute. reflexivity.
  - exists (id lo), (key g). auto.
Defined.

Lemma never_stuck_witness :
  is_Some (step (RunSend 0) (state_after [CallSet "a" 1; RunLoad 0; RunCheck 0]))
  ∨ is_Some (step (RunWake 0) (state_after [CallSet "a" 1; RunLoad 0; RunCheck 0])).
Proof.
  assert (reachable Background
            (state_after [CallSet "a" 1%Z; RunLoad 0; RunCheck 0])) as Hreach.
  { apply state_after_reachable. vm_compute. eauto. }
  destruct (heap (state_after [CallSet "a" 1%Z; RunLoad 0; RunCheck 0]) !! 0)
    as [g|] eqn:Hg; [|by vm_compute in Hg].
  assert (at_pc g = AtSelect ∧ (Active (counts g) < Target (counts g))%Z
          ∧ group_ctx_done
              (state_after [CallSet "a" 1%Z; RunLoad 0; RunCheck 0]) g = false)
    as (Hpc & Hlt & Hctx).
  { vm_compute in Hg. injection Hg as <-. by vm_compute. }
  destruct (never_stuck Background _ 0 g Hreach Hg Hpc Hctx) as [_ Hgo].
  exact (Hgo Hlt).
Defined.

Lemma registered_running_witness :
  ∃ g, heap (state_after (grant_one "a" 1)) !! 0 = Some g ∧ at_pc g ≠ Exited.
Proof.
  assert (reachable Background (state_after (grant_one "a" 1%Z))) as Hreach.
  { apply state_after_reachable. vm_compute. eauto. }
  destruct (registered_running Background _ Hreach) as [_ Hrun].
  apply (Hrun ltac:(vm_compute; reflexivity) "a" 0).
  vm_compute. reflexivity.
Defined.

Lemma delete_cancels_one_witness :
  groups (pool_Set "a" 0 (state_after (grant_one "a" 1))) !! "a" = None.
Proof.
  assert (reachable Background (state_after (grant_one "a" 1%Z))) as Hreach.
  { apply state_after_reachable. vm_compute. eauto. }
  destruct (delete_cancels_one Background _ "a" 0 Hreach) as [Hgone _].
  - vm_compute. reflexivity.
  - exact Hgone.
Defined.

Lemma recreated_group_fresh_witness :
  fst (pool_Get "a"
         (pool_Set "a" 3 (pool_Set "a" 0 (state_after (grant_one "a" 1)))))
  = mkCounts 3 0.
Proof.
  assert (reachable Background (state_after (grant_one "a" 1%Z))) as Hreach.
  { apply state_after_reachable. vm_compute. eauto. }
  destruct (recreated_group_fresh Background _ "a" 0 3%Z Hreach)
    as (_ & Hget & _).
  - vm_compute. reflexivity.
  - lia.
  - exact Hget.
Defined.

Lemma leases_within_target_witness :
  ∃ g, heap (state_after (grant_one "a" 1)) !! 0 = Some g
       ∧ (Z.of_nat (outstanding (state_after (grant_one "a" 1)) 0)
          ≤ Target (counts g))%Z.
Proof.
  destruct (heap (state_after (grant_one "a" 1%Z)) !! 0)
    as [g|] eqn:Hg; [|by vm_compute in Hg].
  exists g. split; [done|].
  destruct (leases_within_target Background (grant_one "a" 1%Z)
              (state_after (grant_one "a" 1%Z)) 0 g) as [Hle _].
  - vm_compute. reflexivity.
  - vm_compute. reflexivity.
  - exact Hg.
  - exact Hle.
Defined.

Lemma NewJitter_range_witness : (5 ≤ NewJitter 10 7 < 10)%Z.
Proof.
  destruct (NewJitter_range 10 7) as [_ Hrange].
  - unfold is_int64. lia.
  - apply Hrange; lia.
Defined.

Lemma Linear_Duration_bounds_witness :
  (0 ≤ Linear_Duration
         (mkLinear (mkLinearConfig 1 2 100 (Some NewJitter)) 3 (Some NewJitter))
         4
     ≤ 100)%Z.
Proof.
  destruct (Linear_Duration_bounds
              (mkLinear (mkLinearConfig 1 2 100 (Some NewJitter)) 3
                        (Some NewJitter)) 4) as [Hb _].
  - simpl. lia.
  - by right.
  - intros _. vm_compute. split; discriminate || reflexivity.
  - exact Hb.
Defined.

Lemma Linear_progression_witness :
  Linear_Duration
    (Nat.iter 3 Linear_Inc (newLinear (mkLinearConfig 1 2 5 None))) 0
  = 5%Z.
Proof.
  rewrite (Linear_progression (mkLinearConfig 1 2 5 None) 3 0).
  - reflexivity.
  - reflexivity.
  - unfold is_int64. simpl. lia.
  - unfold is_int64. simpl. lia.
  - unfold is_int64. simpl. lia.
Defined.

Lemma NewLinear_checks_witness :
  NewLinear (mkLinearConfig 1 0 5 None)
  = inl (BadParameter "missing parameter Step")
  ∧ Linear_After (newLinear (mkLinearConfig 1 2 (-5) None)) 0 = closedChan.
Proof.
  split.
  - destruct (NewLinear_checks (mkLinearConfig 1 0 5 None)) as (_ & Hstep & _).
    apply Hstep. reflexivity.
  - destruct (NewLinear_checks (mkLinearConfig 1 2 (-5) None))
      as (_ & _ & _ & Hneg).
    destruct Hneg as [_ Hafter]; [simpl; lia|simpl; lia|].
    apply (Hafter (newLinear (mkLinearConfig 1 2 (-5) None)) 0%Z eq_refl).
Defined.

Lemma grant_possible_witness :
  ∃ tr s' l,
    length tr ≤ 5
    ∧ exec tr (state_after [CallSet "a" 1%Z; RunLoad 0]) = Some s'
    ∧ grantC s' = grantC (state_after [CallSet "a" 1%Z; RunLoad 0]) ++ [l].
Proof.
  assert (reachable Background (state_after [CallSet "a" 1%Z; RunLoad 0]))
    as Hreach.
  { apply state_after_reachable. vm_compute. eauto. }
  destruct (heap (state_after [CallSet "a" 1%Z; RunLoad 0]) !! 0)
    as [g|] eqn:Hg; [|by vm_compute in Hg].
  assert (at_pc g = AtCheck ∧ (Active (counts g) < Target (counts g))%Z
          ∧ group_ctx_done (state_after [CallSet "a" 1%Z; RunLoad 0]) g = false)
    as (Hpc & Hlt & Hctx).
  { vm_compute in Hg. injection Hg as <-. by vm_compute. }
  destruct (grant_possible Background _ 0 g Hreach Hg Hctx)
    as (tr & s' & l & Hlen & _ & Hex & Hgc); [congruence|congruence|done|].
  by exists tr, s', l.
Defined.

Lemma exit_possible_witness :
  ∃ tr s' g',
    exec tr (state_after (deleted_with_offer "a")) = Some s'
    ∧ heap s' !! 0 = Some g' ∧ at_pc g' = Exited.
Proof.
  destruct (heap (state_after (deleted_with_offer "a")) !! 0)
    as [g|] eqn:Hg; [|by vm_compute in Hg].
  destruct (exit_possible (state_after (deleted_with_offer "a")) 0 g Hg)
    as (tr & s' & g' & _ & _ & Hex & Hg' & Hpc').
  - vm_compute in Hg. injection Hg as <-. by vm_compute.
  - by exists tr, s', g'.
Defined.

Lemma Get_Target_zero_witness :
  fst (pool_Get "b" (state_after (grant_one "a" 1))) = Counts_zero.
Proof.
  assert (reachable Background (state_after (grant_one "a" 1%Z))) as Hreach.
  { apply state_after_reachable. vm_compute. eauto. }
  destruct (Get_Target_zero Background _ "b" Hreach) as [_ Hzero].
  apply Hzero. vm_compute. reflexivity.
Defined.
